(** * The link provider of Zettlr: link index, graph builder, component labeler

    A shallow embedding of [source/app/service-providers/links/index.ts]
    (class [LinkProvider]) and a verification of its documented behaviour.

    - JavaScript [Map<string, V>] is an association list in insertion order
      (module [JsMap]); [Set<string>] a duplicate-free list in insertion
      order (module [JsSet]).
    - The provider instance is the record [LinkProvider]; its methods run in
      the state-and-exception monad [M].
    - The vertices of a graph under construction are mutable objects held in
      the array [graph.nodes]; a reference to a vertex is its index in that
      array, [undefined] is [None].
    - The recursive closure [visit] of [identifyComponents] takes fuel; the
      fuel handed out by [identifyComponents] is shown never to run out,
      and more fuel never changes a result.
    - The resolver [fsal.findExact] and [path.basename] are parameters.
      The IPC handler, the log line and the timing in [buildGraph] are not
      modelled: they read no state of the provider and change none.

    The file also embeds [sortDirectories] of
    [source/win-main/file-manager/util/sort-directories.ts] and the
    comparator of its variant in [unnamed/part_000] (modules
    [SortDirectories] and [SortDirectoriesVariant]).  A string is its
    sequence of code units, compared unit by unit as JavaScript does;
    [toLowerCase] and the type [DirMeta] with its fields are parameters. *)

From Stdlib Require Import ZArith Ascii.
From stdpp Require Import base tactics option list strings pretty relations sorting.

Set Warnings "-clear-no-such-hyp".

Local Open Scope string_scope.
Local Open Scope list_scope.

(** ** Outcomes of JavaScript computations *)

Inductive exn : Type :=
| Error (message : string)   (* [throw new Error(message)] *)
| TypeError.                 (* property access on [undefined] *)

Inductive result (A : Type) : Type :=
| Ok (a : A)
| Throw (e : exn)
| OutOfFuel.

Arguments Ok {A} a.
Arguments Throw {A} e.
Arguments OutOfFuel {A}.

Definition rbind {A B} (r : result A) (k : A → result B) : result B :=
  match r with
  | Ok a => k a
  | Throw e => Throw e
  | OutOfFuel => OutOfFuel
  end.

(** [for (const x of xs) { body }] over a threaded state. *)
Fixpoint for_of {A S} (xs : list A) (body : A → S → result S) (s : S) : result S :=
  match xs with
  | [] => Ok s
  | x :: xs' => rbind (body x s) (for_of xs' body)
  end.

(** ** JavaScript containers *)

Module JsMap.
Abbreviation t V := (list (string * V)) (only parsing).

Definition empty {V} : t V := [].

Fixpoint get {V} (k : string) (m : t V) : option V :=
  match m with
  | [] => None
  | (k', v) :: m' => if decide (k' = k) then Some v else get k m'
  end.

Definition has {V} (k : string) (m : t V) : bool :=
  match get k m with Some _ => true | None => false end.

(** [Map.prototype.set]: an existing key keeps its position. *)
Fixpoint set {V} (k : string) (v : V) (m : t V) : t V :=
  match m with
  | [] => [(k, v)]
  | (k', v') :: m' =>
      if decide (k' = k) then (k, v) :: m' else (k', v') :: set k v m'
  end.

Definition delete {V} (k : string) (m : t V) : t V :=
  filter (λ kv, kv.1 ≠ k) m.

Definition keys {V} (m : t V) : list string := m.*1.

(** The representation invariant of a [Map]: keys are unique. *)
Definition wf {V} (m : t V) : Prop := NoDup (keys m).
End JsMap.

Module JsSet.
Definition add (x : string) (s : list string) : list string :=
  if decide (x ∈ s) then s else s ++ [x].

(** [new Set(xs)]: distinct elements in order of first occurrence. *)
Definition of_list (xs : list string) : list string :=
  foldl (λ s x, add x s) [] xs.
End JsSet.

(** ** [@dts/common/graph] *)

Module Graph.
Record GraphVertex : Type := mkVertex {
  id : string;
  label : string;
  component : string;
  isolate : bool
}.

Record GraphEdge : Type := mkEdge {
  source : string;
  target : string;
  weight : Z
}.

Record LinkGraph : Type := mkGraph {
  nodes : list GraphVertex;
  links : list GraphEdge;
  components : list string
}.

Definition set_component (c : string) (v : GraphVertex) : GraphVertex :=
  {| id := id v; label := label v; component := c; isolate := isolate v |}.

Definition set_isolate (b : bool) (v : GraphVertex) : GraphVertex :=
  {| id := id v; label := label v; component := component v; isolate := b |}.

(** [nodes.find(node => node.id === x)], as a reference (index). *)
Definition find (x : string) (ns : list GraphVertex) : option nat :=
  fst <$> list_find (λ v, id v = x) ns.
End Graph.

Import Graph.

Global Instance GraphVertex_eq_dec : EqDecision GraphVertex.
Proof. solve_decision. Defined.

Global Instance GraphEdge_eq_dec : EqDecision GraphEdge.
Proof. solve_decision. Defined.

(** ** The provider *)

Definition NONE_COMPONENT : string := "Files".

Record LinkProvider : Type := mkProvider {
  _fileLinkDatabase : JsMap.t (list string);
  _idLinkDatabase : JsMap.t (list string);
  (* channels passed to [broadcastIpcMessage] so far, oldest first *)
  ipcBroadcasts : list string
}.

(** A fresh instance, as the constructor leaves it. *)
Definition new_provider : LinkProvider :=
  {| _fileLinkDatabase := JsMap.empty;
     _idLinkDatabase := JsMap.empty;
     ipcBroadcasts := [] |}.

(** Methods: state passing over the instance, with exceptions. *)
Definition M (A : Type) : Type := LinkProvider → result A * LinkProvider.

Definition run {A} (m : M A) (self : LinkProvider) : result A := (m self).1.
Definition exec {A} (m : M A) (self : LinkProvider) : LinkProvider := (m self).2.

Definition broadcastIpcMessage (channel : string) (self : LinkProvider) : LinkProvider :=
  {| _fileLinkDatabase := _fileLinkDatabase self;
     _idLinkDatabase := _idLinkDatabase self;
     ipcBroadcasts := ipcBroadcasts self ++ [channel] |}.

(** [sourceID === '' ? undefined : sourceID] *)
Definition normalizeID (sourceID : option string) : option string :=
  match sourceID with
  | Some "" => None
  | other => other
  end.

(** Messages on the [link-provider] channel: a command, and a payload
    that, when present, carries [filePath]. *)
Record IpcMessage : Type := mkMessage {
  command : string;
  payload : option string
}.

Record LinksAnswer : Type := mkLinks {
  inbound : list string;
  outbound : list string
}.

(** What the handler resolves to; [NoResponse] is [undefined]. *)
Inductive IpcResponse : Type :=
| LinksResponse (links : LinksAnswer)
| GraphResponse (graph : LinkGraph)
| NoResponse.

Section LinkProvider.
(** External collaborators.  [findExact link] is the [path] of the
    descriptor [this._app.fsal.findExact(link)] returns, [None] when it
    returns [undefined]; [basename] is Node's [path.basename]. *)
Variable findExact : string → option string.
Variable basename : string → string.

(** The loop of [report] that fills [resolved]. *)
Fixpoint resolveLinks (outboundLinks : list string) (resolved : list string) : list string :=
  match outboundLinks with
  | [] => resolved
  | link :: rest =>
      match findExact link with
      | Some path => resolveLinks rest (resolved ++ [path])
      | None => resolveLinks rest resolved
      end
  end.

Definition report (sourcePath : string) (outboundLinks : list string)
    (sourceID : option string) : M unit := λ self,
  let sourceID := normalizeID sourceID in
  let resolved := resolveLinks outboundLinks [] in
  let files := JsMap.set sourcePath resolved (_fileLinkDatabase self) in
  let ids := match sourceID with
             | Some i => JsMap.set i resolved (_idLinkDatabase self)
             | None => _idLinkDatabase self
             end in
  (Ok tt, broadcastIpcMessage "links"
            {| _fileLinkDatabase := files;
               _idLinkDatabase := ids;
               ipcBroadcasts := ipcBroadcasts self |}).

Definition remove (sourcePath : string) (sourceID : option string) : M unit := λ self,
  let sourceID := normalizeID sourceID in
  let files := if JsMap.has sourcePath (_fileLinkDatabase self)
               then JsMap.delete sourcePath (_fileLinkDatabase self)
               else _fileLinkDatabase self in
  let ids := match sourceID with
             | Some i => if JsMap.has i (_idLinkDatabase self)
                         then JsMap.delete i (_idLinkDatabase self)
                         else _idLinkDatabase self
             | None => _idLinkDatabase self
             end in
  (Ok tt, broadcastIpcMessage "links"
            {| _fileLinkDatabase := files;
               _idLinkDatabase := ids;
               ipcBroadcasts := ipcBroadcasts self |}).

(** The loop of [retrieveInbound] over [entries()]. *)
Fixpoint inboundScan (entries : JsMap.t (list string)) (sourceFilePath : string)
    (sourceFiles : list string) : list string :=
  match entries with
  | [] => sourceFiles
  | (file, outbound) :: rest =>
      if decide (sourceFilePath ∈ outbound)
      then inboundScan rest sourceFilePath (sourceFiles ++ [file])
      else inboundScan rest sourceFilePath sourceFiles
  end.

Definition retrieveInbound (sourceFilePath : string) : M (list string) := λ self,
  (Ok (inboundScan (_fileLinkDatabase self) sourceFilePath []), self).

Definition retrieveOutbound (sourceFilePath : string) : M (list string) := λ self,
  (Ok (default [] (JsMap.get sourceFilePath (_fileLinkDatabase self))), self).

(** *** [identifyComponents] *)

(** The vertices (mutated in place) and the local array [components]. *)
Definition labeling : Type := list GraphVertex * list string.

(** The opposite ends of the arcs that have [x] as head or tail. *)
Definition oppositeEnds (links : list GraphEdge) (x : string) : list string :=
  (λ link, if decide (target link = x) then source link else target link)
    <$> filter (λ link, source link = x ∨ target link = x) links.

(** The closure [visit(source, component?)].  [source] is a reference into
    the vertex array, [None] for the [undefined] that [nodes.find] gives
    when the cast [as GraphVertex] hides a miss; reading [source.component]
    then raises.  [component] is [None] for a top-level visit.  An index
    beyond the array stands for no object and is never formed. *)
Fixpoint visit (fuel : nat) (links : list GraphEdge)
    (source : option nat) (component : option string) (st : labeling) : result labeling :=
  match fuel with
  | 0 => OutOfFuel
  | S fuel' =>
      match source with
      | None => Throw TypeError
      | Some ref =>
          match st.1 !! ref with
          | None => Throw TypeError
          | Some v =>
              if decide (Graph.component v ≠ NONE_COMPONENT
                         ∨ Some (Graph.component v) = component)
              then Ok st
              else
                let '(component, components) :=
                  match component with
                  | None =>
                      let c := "Component " +:+ pretty (length st.2 + 1) in
                      (c, st.2 ++ [c])
                  | Some c => (c, st.2)
                  end in
                let nodes := alter (set_component component) ref st.1 in
                let allTargets :=
                  (λ link, Graph.find link nodes) <$> oppositeEnds links (id v) in
                for_of allTargets (λ target, visit fuel' links target (Some component))
                       (nodes, components)
          end
      end
  end.

(** Depth of recursion [visit] can need on these vertices. *)
Definition visitFuel (ns : list GraphVertex) : nat := S (length ns).

(** [graph.nodes.forEach(node => visit(node))]; the result pairs the
    relabelled vertices with the returned array [components]. *)
Definition identifyComponents (graph : LinkGraph) : result labeling :=
  for_of (seq 0 (length (nodes graph)))
         (λ idx st, visit (visitFuel (nodes graph)) (links graph) (Some idx) None st)
         (nodes graph, []).

(** *** [buildGraph] *)

(** First loop: one vertex per file, one arc per outbound link. *)
Fixpoint collect (entries : JsMap.t (list string)) (graph : LinkGraph) : LinkGraph :=
  match entries with
  | [] => graph
  | (file, outbound) :: rest =>
      let nodes :=
        match Graph.find file (nodes graph) with
        | None => nodes graph ++ [ {| id := file; label := basename file;
                                       component := NONE_COMPONENT; isolate := true |} ]
        | Some _ => nodes graph
        end in
      let links := links graph ++ ((λ target, mkEdge file target 1) <$> outbound) in
      collect rest {| nodes := nodes; links := links; components := components graph |}
  end.

(** The two loops that clear [isolate] for every arc endpoint. *)
Definition clearIsolate (x : string) (ns : list GraphVertex) : result (list GraphVertex) :=
  match Graph.find x ns with
  | None => Throw (Error "Didnt find node")
  | Some i => Ok (alter (set_isolate false) i ns)
  end.

Definition emptyGraph : LinkGraph := {| nodes := []; links := []; components := [] |}.

Definition buildGraph : M LinkGraph := λ self,
  let graph := collect (_fileLinkDatabase self) emptyGraph in
  let sources := JsSet.of_list (source <$> links graph) in
  let targets := JsSet.of_list (target <$> links graph) in
  (rbind (for_of sources clearIsolate (nodes graph)) (λ ns,
   rbind (for_of targets clearIsolate ns) (λ ns,
   rbind (identifyComponents {| nodes := ns; links := links graph;
                                components := components graph |}) (λ st,
   Ok {| nodes := st.1; links := links graph; components := st.2 |}))),
   self).

(** *** The IPC handler installed by the constructor *)

(** [ipcMain.handle('link-provider', (event, message) => ...)].  The
    handler reads [message.command] and, for [get-inbound-links], takes
    [filePath] out of [message.payload]; a message without payload makes
    that destructuring raise. *)
Definition handleLinkProvider (message : IpcMessage) : M IpcResponse := λ self,
  if decide (command message = "get-inbound-links") then
    match payload message with
    | None => (Throw TypeError, self)
    | Some filePath =>
        match retrieveInbound filePath self with
        | (Ok inbound, self) =>
            match retrieveOutbound filePath self with
            | (Ok outbound, self) =>
                (Ok (LinksResponse {| inbound := inbound; outbound := outbound |}), self)
            | (Throw e, self) => (Throw e, self)
            | (OutOfFuel, self) => (OutOfFuel, self)
            end
        | (Throw e, self) => (Throw e, self)
        | (OutOfFuel, self) => (OutOfFuel, self)
        end
    end
  else if decide (command message = "get-graph") then
    match buildGraph self with
    | (Ok graph, self) => (Ok (GraphResponse graph), self)
    | (Throw e, self) => (Throw e, self)
    | (OutOfFuel, self) => (OutOfFuel, self)
    end
  else (Ok NoResponse, self).

End LinkProvider.

(** * [sortDirectories] *)

(** [Array.prototype.sort(compareFn)].  ECMAScript fixes the result for a
    consistent comparator: the elements in ascending order of [compareFn],
    equal ones in their original order.  [sort] computes that list, by
    insertion; for a comparator that is not consistent the language leaves
    the order to the implementation and this model does not apply.  The
    method sorts in place and returns the array it was called on: [sort xs]
    is the content of that array afterwards. *)
Module JsArray.
Fixpoint insert {A} (compareFn : A → A → Z) (x : A) (sorted : list A) : list A :=
  match sorted with
  | [] => [x]
  | y :: rest =>
      if decide (compareFn x y ≤ 0)%Z then x :: y :: rest
      else y :: insert compareFn x rest
  end.

Definition sort {A} (compareFn : A → A → Z) (xs : list A) : list A :=
  foldr (insert compareFn) [] xs.
End JsArray.

(** The relational operators [<] and [>] on strings: lexicographic on code
    units. *)
Definition jsLt (a b : string) : bool := String.ltb a b.
Definition jsGt (a b : string) : bool := String.ltb b a.

(** [source/win-main/file-manager/util/sort-directories.ts] *)
Module SortDirectories.
Section SortDirectories.
Variable DirMeta : Type.
Variable name dir : DirMeta → string.
Variable toLowerCase : string → string.

(** The inner function [compareByAlpha], with the [sortBy] it closes
    over. *)
Definition compareByAlpha (sortBy : string) (a b : DirMeta) : Z :=
  let nameA := toLowerCase (name a) in
  let nameB := toLowerCase (name b) in
  let compareResult := 0%Z in
  let compareResult :=
    if decide (nameA = nameB) then
      let compareResult := if jsGt (dir a) (dir b) then 1%Z else compareResult in
      if jsLt (dir a) (dir b) then (-1)%Z else compareResult
    else
      let compareResult := if jsGt nameA nameB then 1%Z else compareResult in
      if jsLt nameA nameB then (-1)%Z else compareResult in
  (compareResult * (if decide (sortBy = "AlphaA") then 1 else -1))%Z.

(** [sortBy] omitted takes the default ['AlphaA']. *)
Definition sortDirectories (dirArray : list DirMeta) (sortBy : option string) : list DirMeta :=
  let sortBy := default "AlphaA" sortBy in
  JsArray.sort (compareByAlpha sortBy) dirArray.
End SortDirectories.
End SortDirectories.

(** [unnamed/part_000], a variant of the same file: other default, other
    comparator.  Its comparator is not consistent (shown below), so what
    [dirArray.sort(compareByAlpha)] returns is up to the engine and only the
    comparator is embedded. *)
Module SortDirectoriesVariant.
Section SortDirectoriesVariant.
Variable DirMeta : Type.
Variable name dir : DirMeta → string.
Variable toLowerCase : string → string.

Definition defaultSortBy : string := "AlphaD".

Definition compareByAlpha (sortBy : string) (a b : DirMeta) : Z :=
  let nameA := toLowerCase (name a) in
  let nameB := toLowerCase (name b) in
  let compareResult := 0%Z in
  let compareResult :=
    if decide (nameA = nameB) then
      if jsLt (dir a) (dir b) then 1%Z else (-1)%Z
    else
      if jsLt nameA nameB then 1%Z else 1%Z in
  (compareResult * (if decide (sortBy = "AlphaA") then 1 else -1))%Z.
End SortDirectoriesVariant.
End SortDirectoriesVariant.

(** * Specification vocabulary *)

(** Two identifiers are adjacent when some arc joins them, in either
    direction; they are connected when a path of such arcs joins them. *)
Definition adjacent (es : list GraphEdge) (x y : string) : Prop :=
  ∃ e, e ∈ es ∧ ((source e = x ∧ target e = y) ∨ (source e = y ∧ target e = x)).

Definition connected (es : list GraphEdge) : relation string := rtc (adjacent es).

(** The identifier occurs as [source] or as [target] of some arc. *)
Definition endpoint (es : list GraphEdge) (x : string) : Prop :=
  ∃ e, e ∈ es ∧ (source e = x ∨ target e = x).

Definition ids (ns : list GraphVertex) : list string := id <$> ns.

(** Every arc starts and ends at a vertex of [ns]. *)
Definition edges_closed (ns : list GraphVertex) (es : list GraphEdge) : Prop :=
  ∀ e, e ∈ es → source e ∈ ids ns ∧ target e ∈ ids ns.

(** The vertices with their component labels reset: what labeling never
    changes. *)
Definition erase (ns : list GraphVertex) : list GraphVertex :=
  set_component NONE_COMPONENT <$> ns.

(** The component label stored for identifier [x] (the sentinel when [x] has
    no vertex). *)
Fixpoint componentOf (ns : list GraphVertex) (x : string) : string :=
  match ns with
  | [] => NONE_COMPONENT
  | v :: ns' => if decide (id v = x) then component v else componentOf ns' x
  end.

(** The [n]-th label [identifyComponents] hands out. *)
Definition componentName (n : nat) : string := "Component " +:+ pretty n.

(** Number of vertices that still carry the sentinel. *)
Definition unassigned (ns : list GraphVertex) : nat :=
  length (filter (λ v, component v = NONE_COMPONENT) ns).

(** Every outbound target in the database is itself a key. *)
Definition targets_reported (db : JsMap.t (list string)) : Prop :=
  ∀ file outbound target,
    (file, outbound) ∈ db → target ∈ outbound → target ∈ JsMap.keys db.

(** Both databases of an instance are well-formed maps. *)
Definition provider_wf (self : LinkProvider) : Prop :=
  JsMap.wf (_fileLinkDatabase self) ∧ JsMap.wf (_idLinkDatabase self).

(** An instance of the parameter [basename] for the examples: the text
    after the last [/], which is what Node's [path.basename] returns for the
    plain file paths used below.  [lastSegment acc s] is the last segment of
    [acc ++ s]. *)
Fixpoint lastSegment (acc : string) (s : string) : string :=
  match s with
  | EmptyString => acc
  | String c rest =>
      if decide (c = "/"%char) then lastSegment "" rest
      else lastSegment (acc +:+ String c EmptyString) rest
  end.

Definition posixBasename : string → string := lastSegment "".

(** A resolver that knows every token: each resolves to itself. *)
Definition resolveAll : string → option string := Some.

(** A resolver that knows every token except ["missing.md"]. *)
Definition resolveKnown (token : string) : option string :=
  if decide (token = "missing.md") then None else Some token.

(** Example states, reached from a fresh instance by calls to [report]. *)
Definition after (calls : list (M unit)) (self : LinkProvider) : LinkProvider :=
  foldl (λ self call, exec call self) self calls.

(** [a.md] links to [b.md], which never reported. *)
Definition danglingIndex : LinkProvider :=
  after [report resolveAll "/notes/a.md" ["/notes/b.md"] None] new_provider.

(** Two linked pairs and a file without links. *)
Definition pairsIndex : LinkProvider :=
  after [report resolveKnown "/notes/a.md" ["/notes/b.md"; "missing.md"] (Some "1");
         report resolveKnown "/notes/b.md" [] None;
         report resolveKnown "/notes/c.md" ["/notes/d.md"; "/notes/c.md"] None;
         report resolveKnown "/notes/d.md" ["/notes/c.md"] None;
         report resolveKnown "/notes/e.md" [] None] new_provider.

Definition pairsGraph : LinkGraph :=
  {| nodes :=
       [ mkVertex "/notes/a.md" "a.md" "Component 1" false;
         mkVertex "/notes/b.md" "b.md" "Component 1" false;
         mkVertex "/notes/c.md" "c.md" "Component 2" false;
         mkVertex "/notes/d.md" "d.md" "Component 2" false;
         mkVertex "/notes/e.md" "e.md" "Component 3" true ];
     links :=
       [ mkEdge "/notes/a.md" "/notes/b.md" 1;
         mkEdge "/notes/c.md" "/notes/d.md" 1;
         mkEdge "/notes/c.md" "/notes/c.md" 1;
         mkEdge "/notes/d.md" "/notes/c.md" 1 ];
     components := ["Component 1"; "Component 2"; "Component 3"] |}.

(** No labelled vertex outside [G] has an unlabelled neighbour. *)
Definition closed_outside (es : list GraphEdge) (G : string → Prop)
    (ns : list GraphVertex) : Prop :=
  ∀ x z, componentOf ns x ≠ NONE_COMPONENT → ¬ G x → adjacent es x z →
         componentOf ns z ≠ NONE_COMPONENT.

(** What a traversal that starts at [y] with label [c] and has finished the
    vertices [ts] did to the vertices. *)
Record reach_post (es : list GraphEdge) (c y : string) (ts : list string)
    (ns ns' : list GraphVertex) : Prop := ReachPost {
  post_erase : erase ns' = erase ns;
  post_keep : ∀ x, componentOf ns x ≠ NONE_COMPONENT → componentOf ns' x = componentOf ns x;
  post_new : ∀ x, componentOf ns x = NONE_COMPONENT → componentOf ns' x ≠ NONE_COMPONENT →
                  componentOf ns' x = c ∧ connected es y x;
  post_done : ∀ t, t ∈ ts → componentOf ns' t ≠ NONE_COMPONENT;
  post_closed : ∀ G, closed_outside es G ns → closed_outside es G ns'
}.

(** The invariant of the [forEach] loop of [identifyComponents] over the
    vertices [ns0] and arcs [es]. *)
Definition top_inv (es : list GraphEdge) (ns0 : list GraphVertex) (st : labeling) : Prop :=
  erase st.1 = erase ns0
  ∧ st.2 = componentName <$> seq 1 (length st.2)
  ∧ (∀ x, componentOf st.1 x ≠ NONE_COMPONENT → componentOf st.1 x ∈ st.2)
  ∧ (∀ x y, componentOf st.1 x ≠ NONE_COMPONENT →
            (componentOf st.1 x = componentOf st.1 y ↔ connected es x y)).

(** What one call [visit(vertex, c)] guarantees on vertex arrays that agree
    with [ns0] up to labels, when it is given [fuel]. *)
Definition visit_ok (es : list GraphEdge) (ns0 : list GraphVertex)
    (fuel : nat) (c : string) : Prop :=
  ∀ i v st, erase st.1 = erase ns0 → st.1 !! i = Some v →
    match visit fuel es (Some i) (Some c) st with
    | Ok st' => st'.2 = st.2 ∧ reach_post es c (id v) [id v] st.1 st'.1
    | Throw _ => False
    | OutOfFuel => True
    end.

(** The arcs the database describes: one per stored outbound link, in
    database order. *)
Definition arcsOf (db : JsMap.t (list string)) : list GraphEdge :=
  db ≫= (λ kv, (λ target, mkEdge kv.1 target 1) <$> kv.2).

(** What [buildGraph] promises about the graph it returns for database
    [db]. *)
Record built (basename : string → string) (db : JsMap.t (list string))
    (g : LinkGraph) : Prop := Built {
  built_links : links g = arcsOf db;
  built_ids : ∀ x, x ∈ ids (nodes g) ↔ x ∈ JsMap.keys db;
  built_NoDup : NoDup (ids (nodes g));
  built_closed : edges_closed (nodes g) (links g);
  built_label : ∀ v, v ∈ nodes g → label v = basename (id v);
  built_isolate : ∀ v, v ∈ nodes g → (isolate v = false ↔ endpoint (links g) (id v));
  built_names : components g = componentName <$> seq 1 (length (components g));
  built_labelled : ∀ v, v ∈ nodes g →
    component v ≠ NONE_COMPONENT ∧ component v ∈ components g;
  built_partition : ∀ v w, v ∈ nodes g → w ∈ nodes g →
    (component v = component w ↔ connected (links g) (id v) (id w))
}.

(** A call that changes the index. *)
Inductive mutation : Type :=
| Report (sourcePath : string) (outboundLinks : list string) (sourceID : option string)
| Remove (sourcePath : string) (sourceID : option string).

Definition mutate (findExact : string → option string) (m : mutation) : M unit :=
  match m with
  | Report sourcePath outboundLinks sourceID => report findExact sourcePath outboundLinks sourceID
  | Remove sourcePath sourceID => remove sourcePath sourceID
  end.

(** The instance after a history of such calls on a fresh one. *)
Definition history (findExact : string → option string) (ms : list mutation) : LinkProvider :=
  after (mutate findExact <$> ms) new_provider.

(** Every identifier stored in a database came out of the resolver. *)
Definition all_resolved (findExact : string → option string)
    (db : JsMap.t (list string)) : Prop :=
  ∀ key outbound target, (key, outbound) ∈ db → target ∈ outbound →
    ∃ token, findExact token = Some target.

(** The answers of the two link queries, as plain lists. *)
Definition inboundOf (self : LinkProvider) (path : string) : list string :=
  match run (retrieveInbound path) self with Ok sources => sources | _ => [] end.

Definition outboundOf (self : LinkProvider) (path : string) : list string :=
  match run (retrieveOutbound path) self with Ok targets => targets | _ => [] end.

(** Every identifier an arc joins to the vertex has a vertex in [ns]. *)
Definition neighbours_present (es : list GraphEdge) (ns : list GraphVertex)
    (v : GraphVertex) : Prop :=
  ∀ y, y ∈ oppositeEnds es (id v) → y ∈ ids ns.

(** A vertex before and after a traversal that hands out label [c]: it is
    untouched, or it carried the sentinel, has all its neighbours among the
    vertices, and now carries [c]. *)
Definition relabelled (es : list GraphEdge) (ns0 : list GraphVertex) (c : string)
    (v v' : GraphVertex) : Prop :=
  v' = v ∨ (component v = NONE_COMPONENT ∧ neighbours_present es ns0 v
            ∧ v' = set_component c v).

(** The same for a vertex of the graph handed to [identifyComponents] and
    its state while the labels in [comps] have been handed out. *)
Definition labelled_from (es : list GraphEdge) (ns0 : list GraphVertex)
    (comps : list string) (v v' : GraphVertex) : Prop :=
  v' = v ∨ (component v = NONE_COMPONENT ∧ neighbours_present es ns0 v
            ∧ ∃ c, c ∈ comps ∧ v' = set_component c v).

(** The invariant of the [forEach] loop of [identifyComponents] on an
    arbitrary graph, before index [i] is visited. *)
Definition sweep_inv (es : list GraphEdge) (ns0 : list GraphVertex)
    (i : nat) (st : labeling) : Prop :=
  st.2 = componentName <$> seq 1 (length st.2)
  ∧ Forall2 (labelled_from es ns0 st.2) ns0 st.1
  ∧ (∀ j v', (j < i)%nat → st.1 !! j = Some v' → component v' ≠ NONE_COMPONENT)
  ∧ (∀ m, (1 ≤ m ≤ length st.2)%nat →
       ∃ j v, (j < i)%nat ∧ ns0 !! j = Some v ∧ component v = NONE_COMPONENT
              ∧ st.1 !! j = Some (set_component (componentName m) v))
  ∧ (∀ m n j v, (1 ≤ m < n)%nat → (n ≤ length st.2)%nat →
       ns0 !! j = Some v → component v = NONE_COMPONENT →
       st.1 !! j = Some (set_component (componentName n) v) →
       ∃ j' v0, (j' < j)%nat ∧ ns0 !! j' = Some v0 ∧ component v0 = NONE_COMPONENT
                ∧ st.1 !! j' = Some (set_component (componentName m) v0)).

(** A graph handed to [identifyComponents] directly: one vertex already
    carries a label of its own. *)
Definition mixedGraph : LinkGraph :=
  {| nodes := [ mkVertex "a" "a" "Files" false; mkVertex "b" "b" "Mine" false;
                mkVertex "c" "c" "Files" false; mkVertex "d" "d" "Files" true ];
     links := [ mkEdge "a" "b" 1; mkEdge "c" "a" 1 ];
     components := [] |}.

Definition mixedLabeling : labeling :=
  ([ mkVertex "a" "a" "Component 1" false; mkVertex "b" "b" "Mine" false;
     mkVertex "c" "c" "Component 1" false; mkVertex "d" "d" "Component 2" true ],
   ["Component 1"; "Component 2"]).

(** A graph with an arc to an identifier that has no vertex. *)
Definition danglingGraph : LinkGraph :=
  {| nodes := [ mkVertex "a" "a" "Files" false ];
     links := [ mkEdge "a" "b" 1 ];
     components := [] |}.

(** The order of [sortDirectories]: first by lower-cased name, then by
    containing directory. *)
Definition strLt (a b : string) : Prop := String.ltb a b = true.

Definition dirBefore {DirMeta} (name dir : DirMeta → string)
    (toLowerCase : string → string) (a b : DirMeta) : Prop :=
  strLt (toLowerCase (name a)) (toLowerCase (name b))
  ∨ (toLowerCase (name a) = toLowerCase (name b) ∧ strLt (dir a) (dir b)).

Definition sameKey {DirMeta} (name dir : DirMeta → string)
    (toLowerCase : string → string) (a b : DirMeta) : Prop :=
  toLowerCase (name a) = toLowerCase (name b) ∧ dir a = dir b.

Global Instance sameKey_dec {DirMeta} (name dir : DirMeta → string)
    (toLowerCase : string → string) (a b : DirMeta) :
  Decision (sameKey name dir toLowerCase a b).
Proof. unfold sameKey. apply _. Defined.

(** Directory entries for the examples; [stamp] stands for the fields of
    [DirMeta] the sorting does not look at. *)
Record exampleDir : Type := mkDir {
  dirName : string;
  dirPath : string;
  stamp : nat
}.

(** Lower-casing of the letters A to Z, which is what [toLowerCase] does
    on the ASCII names of the examples. *)
Definition asciiLower (c : ascii) : ascii :=
  let n := nat_of_ascii c in
  if decide (65 ≤ n ≤ 90)%nat then ascii_of_nat (n + 32) else c.

Fixpoint asciiToLowerCase (s : string) : string :=
  match s with
  | EmptyString => EmptyString
  | String c rest => String (asciiLower c) (asciiToLowerCase rest)
  end.

Definition exampleDirs : list exampleDir :=
  [ mkDir "notes" "/home/b" 1; mkDir "Archive" "/home/a" 2;
    mkDir "Notes" "/home/a" 3; mkDir "notes" "/home/b" 4 ].

(** * Verification *)

(** ** Facts about the containers *)

Module JsMapFacts.
Import JsMap.

Lemma get_set_eq {V} k (v : V) m : get k (set k v m) = Some v.
Proof.
  induction m as [|[k' v'] m IH]; simpl.
  - by rewrite decide_True.
  - destruct (decide (k' = k)) as [->|Hne]; simpl.
    + by rewrite decide_True.
    + by rewrite decide_False.
Qed.

Lemma get_set_ne {V} k k' (v : V) m : k ≠ k' → get k' (set k v m) = get k' m.
Proof.
  intros Hne. induction m as [|[k0 v0] m IH]; simpl.
  - by rewrite decide_False.
  - destruct (decide (k0 = k)) as [->|Hne0]; simpl.
    + by rewrite !decide_False.
    + by rewrite IH.
Qed.

Lemma set_set {V} k (v : V) m : set k v (set k v m) = set k v m.
Proof.
  induction m as [|[k' v'] m IH]; simpl.
  - by rewrite decide_True.
  - destruct (decide (k' = k)) as [->|Hne]; simpl.
    + by rewrite decide_True.
    + by rewrite decide_False, IH.
Qed.

Lemma get_delete {V} k (m : t V) : get k (delete k m) = None.
Proof.
  unfold delete. induction m as [|[k' v'] m IH]; [done|].
  rewrite filter_cons. simpl. destruct (decide (k' ≠ k)) as [Hne|Heq]; simpl.
  - by rewrite decide_False.
  - done.
Qed.

Lemma get_None {V} k (m : t V) : get k m = None ↔ k ∉ keys m.
Proof.
  unfold keys. induction m as [|[k' v'] m IH]; simpl.
  - split; [intros _; apply not_elem_of_nil|done].
  - rewrite not_elem_of_cons. destruct (decide (k' = k)) as [->|Hne].
    + split; [done|]. by intros [? _].
    + rewrite IH. split; [by intros ?; split|by intros [_ ?]].
Qed.

Lemma get_Some_elem_of {V} k (v : V) m : get k m = Some v → (k, v) ∈ m.
Proof.
  induction m as [|[k' v'] m IH]; simpl; [done|].
  destruct (decide (k' = k)) as [->|Hne].
  - intros [= ->]. left.
  - intros ?. right. auto.
Qed.

Lemma keys_set {V} k (v : V) m :
  keys (set k v m) = if has k m then keys m else keys m ++ [k].
Proof.
  unfold has, keys. induction m as [|[k' v'] m IH]; [done|]. simpl.
  destruct (decide (k' = k)) as [->|Hne]; [done|].
  rewrite fmap_cons, IH. by destruct (get k m).
Qed.

Lemma set_wf {V} k (v : V) m : wf m → wf (set k v m).
Proof.
  unfold wf. rewrite keys_set. unfold has.
  destruct (get k m) eqn:Hget; [done|].
  intros Hnd. apply NoDup_app. split_and!; [done| |apply NoDup_singleton].
  intros x Hx ->%list_elem_of_singleton. by apply get_None in Hget.
Qed.

Lemma delete_wf {V} k (m : t V) : wf m → wf (delete k m).
Proof.
  unfold wf, keys, delete. induction m as [|[k' v'] m IH]; [done|].
  rewrite filter_cons. simpl. rewrite !NoDup_cons. intros [Hk Hnd].
  destruct (decide (k' ≠ k)); simpl; [|by auto].
  rewrite NoDup_cons. split; [|by auto].
  rewrite list_elem_of_fmap in Hk |- *. intros (kv & -> & Hin).
  apply list_elem_of_filter in Hin as [_ Hin]. eauto.
Qed.

Lemma empty_wf {V} : wf (@empty V).
Proof. apply NoDup_nil_2. Qed.
End JsMapFacts.

Module JsSetFacts.
Import JsSet.

Lemma elem_of_add x y s : x ∈ add y s ↔ x = y ∨ x ∈ s.
Proof.
  unfold add. destruct (decide (y ∈ s)).
  - naive_solver.
  - rewrite elem_of_app, list_elem_of_singleton. naive_solver.
Qed.

Lemma elem_of_foldl_add x xs s :
  x ∈ foldl (λ s x, add x s) s xs ↔ x ∈ xs ∨ x ∈ s.
Proof.
  revert s. induction xs as [|y xs IH]; intros s; simpl.
  - rewrite elem_of_nil. naive_solver.
  - rewrite IH, elem_of_add, elem_of_cons. naive_solver.
Qed.

Lemma elem_of_of_list x xs : x ∈ of_list xs ↔ x ∈ xs.
Proof. unfold of_list. rewrite elem_of_foldl_add, elem_of_nil. naive_solver. Qed.
End JsSetFacts.

(** ** The link index *)

Section IndexFacts.
Variable findExact : string → option string.

Lemma resolveLinks_acc outboundLinks resolved :
  resolveLinks findExact outboundLinks resolved = resolved ++ omap findExact outboundLinks.
Proof.
  revert resolved. induction outboundLinks as [|link rest IH]; intros resolved; simpl.
  - by rewrite app_nil_r.
  - destruct (findExact link) as [path|]; rewrite IH; [|done].
    by rewrite <- app_assoc.
Qed.

Lemma resolveLinks_omap outboundLinks :
  resolveLinks findExact outboundLinks [] = omap findExact outboundLinks.
Proof. apply resolveLinks_acc. Qed.

Lemma report_files sourcePath outboundLinks sourceID self :
  _fileLinkDatabase (exec (report findExact sourcePath outboundLinks sourceID) self)
  = JsMap.set sourcePath (omap findExact outboundLinks) (_fileLinkDatabase self).
Proof. unfold exec, report. simpl. by rewrite resolveLinks_omap. Qed.

Lemma report_ids sourcePath outboundLinks sourceID self :
  _idLinkDatabase (exec (report findExact sourcePath outboundLinks sourceID) self)
  = match normalizeID sourceID with
    | Some i => JsMap.set i (omap findExact outboundLinks) (_idLinkDatabase self)
    | None => _idLinkDatabase self
    end.
Proof. unfold exec, report. simpl. by rewrite resolveLinks_omap. Qed.

Lemma normalizeID_nonempty i : i ≠ "" → normalizeID (Some i) = Some i.
Proof. by destruct i. Qed.

Lemma new_provider_wf : provider_wf new_provider.
Proof. split; apply JsMapFacts.empty_wf. Qed.

Lemma report_wf sourcePath outboundLinks sourceID self :
  provider_wf self →
  provider_wf (exec (report findExact sourcePath outboundLinks sourceID) self).
Proof.
  intros [Hf Hi]. split.
  - rewrite report_files. by apply JsMapFacts.set_wf.
  - rewrite report_ids. destruct (normalizeID sourceID); [|done].
    by apply JsMapFacts.set_wf.
Qed.

Lemma remove_wf sourcePath sourceID self :
  provider_wf self → provider_wf (exec (remove sourcePath sourceID) self).
Proof.
  intros [Hf Hi]. unfold exec, remove. split; simpl.
  - destruct (JsMap.has _ _); [|done]. by apply JsMapFacts.delete_wf.
  - destruct (normalizeID sourceID); [|done].
    destruct (JsMap.has _ _); [|done]. by apply JsMapFacts.delete_wf.
Qed.
End IndexFacts.

(** ** Vertices held in an array *)

Section VertexFacts.
Implicit Types (ns : list GraphVertex) (v w : GraphVertex) (x y c : string).

Lemma find_via_ids x ns : Graph.find x ns = fst <$> list_find (λ y, y = x) (ids ns).
Proof.
  unfold Graph.find, ids. rewrite list_find_fmap.
  by destruct (list_find _ ns) as [[??]|].
Qed.

Lemma find_ids_eq x ns ns' : ids ns = ids ns' → Graph.find x ns = Graph.find x ns'.
Proof. intros Heq. by rewrite !find_via_ids, Heq. Qed.

Lemma find_Some x ns i :
  Graph.find x ns = Some i → ∃ v, ns !! i = Some v ∧ id v = x.
Proof.
  unfold Graph.find. destruct (list_find _ ns) as [[j v]|] eqn:Hf; [|done].
  intros [= <-]. apply list_find_Some in Hf as (? & ? & _). eauto.
Qed.

Lemma find_None x ns : Graph.find x ns = None ↔ x ∉ ids ns.
Proof.
  unfold Graph.find, ids. rewrite fmap_None, list_find_None, Forall_forall.
  rewrite list_elem_of_fmap. naive_solver.
Qed.

Lemma find_is_Some x ns : x ∈ ids ns → is_Some (Graph.find x ns).
Proof.
  intros Hin. destruct (Graph.find x ns) eqn:Hf; [by eexists|].
  by apply find_None in Hf.
Qed.

Lemma lookup_ids ns i v : ns !! i = Some v → id v ∈ ids ns.
Proof. intros H. apply list_elem_of_fmap. eauto using list_elem_of_lookup_2. Qed.

Lemma NoDup_ids_lookup ns i j v w :
  NoDup (ids ns) → ns !! i = Some v → ns !! j = Some w → id v = id w → i = j.
Proof.
  intros Hnd Hi Hj Heq. eapply NoDup_lookup; [done| |].
  - unfold ids. by rewrite list_lookup_fmap, Hi.
  - unfold ids. rewrite list_lookup_fmap, Hj. simpl. by rewrite Heq.
Qed.

Lemma NoDup_ids_elem_of ns v w :
  NoDup (ids ns) → v ∈ ns → w ∈ ns → id v = id w → v = w.
Proof.
  intros Hnd [i Hi]%list_elem_of_lookup [j Hj]%list_elem_of_lookup Heq.
  assert (i = j) as -> by eauto using NoDup_ids_lookup. congruence.
Qed.

Lemma find_lookup ns i v :
  NoDup (ids ns) → ns !! i = Some v → Graph.find (id v) ns = Some i.
Proof.
  intros Hnd Hi. destruct (find_is_Some (id v) ns) as [j Hj]; [by eapply lookup_ids|].
  destruct (find_Some _ _ _ Hj) as (w & Hw & Heq).
  rewrite Hj. f_equal. eauto using NoDup_ids_lookup.
Qed.

(** With unique identifiers, updating the object behind a reference is
    updating the vertex with that identifier. *)
Lemma alter_by_id (f : GraphVertex → GraphVertex) ns i v :
  NoDup (ids ns) → ns !! i = Some v →
  alter f i ns = (λ w, if decide (id w = id v) then f w else w) <$> ns.
Proof.
  intros Hnd Hi. apply list_eq. intros j.
  rewrite list_lookup_fmap. destruct (decide (i = j)) as [<-|Hne].
  - rewrite list_lookup_alter_eq, Hi. simpl. by rewrite decide_True.
  - rewrite list_lookup_alter_ne by done.
    destruct (ns !! j) as [w|] eqn:Hj; [|done]. simpl.
    rewrite decide_False; [done|]. intros Heq. apply Hne. symmetry.
    eauto using NoDup_ids_lookup.
Qed.

Lemma ids_alter (f : GraphVertex → GraphVertex) i ns :
  (∀ v, id (f v) = id v) → ids (alter f i ns) = ids ns.
Proof.
  intros Hf. unfold ids. apply list_eq. intros j.
  rewrite !list_lookup_fmap. destruct (decide (i = j)) as [<-|Hne].
  - rewrite list_lookup_alter_eq. destruct (ns !! i); simpl; [|done]. by rewrite Hf.
  - by rewrite list_lookup_alter_ne.
Qed.

Lemma erase_alter c i ns : erase (alter (set_component c) i ns) = erase ns.
Proof.
  unfold erase. apply list_eq. intros j.
  rewrite !list_lookup_fmap. destruct (decide (i = j)) as [<-|Hne].
  - rewrite list_lookup_alter_eq. by destruct (ns !! i).
  - by rewrite list_lookup_alter_ne.
Qed.

Lemma erase_ids ns : ids (erase ns) = ids ns.
Proof. unfold ids, erase. rewrite <- list_fmap_compose. by apply list_fmap_ext. Qed.

Lemma erase_eq_ids ns ns' : erase ns = erase ns' → ids ns = ids ns'.
Proof. intros H. by rewrite <- (erase_ids ns), H, erase_ids. Qed.

Lemma erase_eq_length ns ns' : erase ns = erase ns' → length ns = length ns'.
Proof. intros H. by rewrite <- (length_fmap (set_component NONE_COMPONENT) ns), <- (length_fmap (set_component NONE_COMPONENT) ns'); unfold erase in H; rewrite H. Qed.

Lemma erase_eq_lookup ns ns' i v :
  erase ns = erase ns' → ns !! i = Some v →
  ∃ v', ns' !! i = Some v' ∧ id v' = id v ∧ label v' = label v ∧ isolate v' = isolate v.
Proof.
  intros Heq Hi. assert (erase ns !! i = Some (set_component NONE_COMPONENT v)) as H.
  { unfold erase. by rewrite list_lookup_fmap, Hi. }
  rewrite Heq in H. unfold erase in H. rewrite list_lookup_fmap in H.
  destruct (ns' !! i) as [v'|]; [|done]. simpl in H. injection H as H.
  exists v'. split; [done|]. by inversion H.
Qed.

Lemma erase_unlabelled ns :
  Forall (λ v, component v = NONE_COMPONENT) ns → erase ns = ns.
Proof.
  intros H. unfold erase. induction H as [|v ns Hv _ IH]; [done|].
  rewrite fmap_cons, IH. f_equal. destruct v. simpl in *. by subst.
Qed.

Lemma componentOf_not_elem ns x : x ∉ ids ns → componentOf ns x = NONE_COMPONENT.
Proof.
  unfold ids. induction ns as [|v ns IH]; [done|]. simpl.
  rewrite not_elem_of_cons. intros [Hne Hnin].
  rewrite decide_False by done. auto.
Qed.

Lemma componentOf_elem ns v :
  NoDup (ids ns) → v ∈ ns → componentOf ns (id v) = component v.
Proof.
  unfold ids. induction ns as [|w ns IH]; [by intros _ ?%elem_of_nil|]. simpl.
  rewrite NoDup_cons. intros [Hw Hnd] [->|Hin]%elem_of_cons.
  - by rewrite decide_True.
  - rewrite decide_False; [by apply IH|].
    intros Heq. apply Hw. rewrite Heq. apply list_elem_of_fmap. eauto.
Qed.

Lemma componentOf_by_id c y ns x :
  componentOf ((λ w, if decide (id w = y) then set_component c w else w) <$> ns) x
  = if decide (x = y ∧ y ∈ ids ns) then c else componentOf ns x.
Proof.
  unfold ids. induction ns as [|w ns IH].
  - simpl. rewrite decide_False; [done|]. by intros [_ ?%elem_of_nil].
  - rewrite !fmap_cons. cbn [componentOf]. rewrite IH.
    destruct (decide (id w = y)) as [<-|Hy]; simpl.
    + destruct (decide (id w = x)) as [<-|Hx].
      * rewrite decide_True; [done|]. split; [done|left].
      * rewrite !decide_False; [done| |]; by intros [-> _].
    + destruct (decide (id w = x)) as [<-|Hx].
      * rewrite decide_False; [done|]. by intros [? _].
      * apply decide_ext. rewrite elem_of_cons. naive_solver.
Qed.

Lemma componentOf_alter c ns i v x :
  NoDup (ids ns) → ns !! i = Some v →
  componentOf (alter (set_component c) i ns) x
  = if decide (x = id v) then c else componentOf ns x.
Proof.
  intros Hnd Hi. rewrite (alter_by_id _ ns i v) by done.
  rewrite componentOf_by_id. apply decide_ext.
  split; [by intros [? _]|]. intros ->. eauto using lookup_ids.
Qed.

Lemma unassigned_le_length ns : (unassigned ns ≤ length ns)%nat.
Proof. apply length_filter. Qed.

Lemma unassigned_alter c ns i v :
  ns !! i = Some v → component v = NONE_COMPONENT → c ≠ NONE_COMPONENT →
  S (unassigned (alter (set_component c) i ns)) = unassigned ns.
Proof.
  unfold unassigned. revert i. induction ns as [|w ns IH]; intros i Hi Hv Hc; [done|].
  destruct i as [|i]; simpl in *.
  - injection Hi as ->. rewrite !filter_cons. simpl.
    rewrite decide_False by done. by rewrite decide_True.
  - rewrite !filter_cons. destruct (decide (component w = NONE_COMPONENT)); simpl.
    + f_equal. by apply IH.
    + by apply IH.
Qed.
End VertexFacts.

(** ** Loops and fuel *)

Lemma visit_S fuel links source component st :
  visit (S fuel) links source component st =
  match source with
  | None => Throw TypeError
  | Some ref =>
      match st.1 !! ref with
      | None => Throw TypeError
      | Some v =>
          if decide (Graph.component v ≠ NONE_COMPONENT ∨ Some (Graph.component v) = component)
          then Ok st
          else
            let c := default (componentName (length st.2 + 1)) component in
            let nodes := alter (set_component c) ref st.1 in
            for_of ((λ link, Graph.find link nodes) <$> oppositeEnds links (id v))
                   (λ target, visit fuel links target (Some c))
                   (nodes, match component with None => st.2 ++ [c] | Some _ => st.2 end)
      end
  end.
Proof. by destruct component. Qed.

Lemma componentName_not_NONE n : componentName n ≠ NONE_COMPONENT.
Proof. done. Qed.

Lemma componentName_inj n m : componentName n = componentName m → n = m.
Proof.
  unfold componentName. intros H. apply (inj pretty).
  by apply (inj (String.app "Component ")) in H.
Qed.

Lemma visit_guard_false v (component : option string) :
  ¬ (Graph.component v ≠ NONE_COMPONENT ∨ Some (Graph.component v) = component) →
  Graph.component v = NONE_COMPONENT
  ∧ default (componentName (length ([] : list string) + 1)) component ≠ NONE_COMPONENT
  ∧ ∀ n, default (componentName n) component ≠ NONE_COMPONENT.
Proof.
  intros Hg. destruct (decide (Graph.component v = NONE_COMPONENT)) as [Hv|Hv]; [|tauto].
  assert (∀ n, default (componentName n) component ≠ NONE_COMPONENT) as H.
  { intros n. destruct component as [c|]; simpl; [|done].
    intros ->. apply Hg. right. by rewrite Hv. }
  auto.
Qed.

(** A loop whose body neither runs out of fuel nor removes labels does
    not run out of fuel either. *)
Lemma for_of_fuel {A} (body : A → labeling → result labeling) (n : nat) :
  (∀ x st, (unassigned st.1 < n)%nat →
     match body x st with
     | Ok st' => (unassigned st'.1 ≤ unassigned st.1)%nat
     | Throw _ => True
     | OutOfFuel => False
     end) →
  ∀ xs st, (unassigned st.1 < n)%nat →
    match for_of xs body st with
    | Ok st' => (unassigned st'.1 ≤ unassigned st.1)%nat
    | Throw _ => True
    | OutOfFuel => False
    end.
Proof.
  intros Hbody. induction xs as [|x xs IH]; intros st Hst; simpl; [lia|].
  specialize (Hbody x st Hst). destruct (body x st) as [st1| |]; simpl; [|done..].
  specialize (IH st1 ltac:(lia)). destruct (for_of xs body st1); [lia|done..].
Qed.

(** [visit] gets by on one unit of fuel per unlabelled vertex, plus one. *)
Lemma visit_fuel links fuel :
  ∀ source component st,
    (unassigned st.1 < fuel)%nat →
    match visit fuel links source component st with
    | Ok st' => (unassigned st'.1 ≤ unassigned st.1)%nat
    | Throw _ => True
    | OutOfFuel => False
    end.
Proof.
  induction fuel as [|fuel IH]; intros source component [ns comps] Hlt; [simpl in Hlt; lia|].
  rewrite visit_S. destruct source as [ref|]; [|done]. simpl in *.
  destruct (ns !! ref) as [v|] eqn:Hv; [|done].
  destruct (decide _) as [|Hg]; [simpl; lia|].
  apply visit_guard_false in Hg as (Hnone & _ & Hc).
  specialize (Hc (length comps + 1)). set (c := default _ component) in *.
  pose proof (unassigned_alter c ns ref v Hv Hnone Hc) as Hdec.
  set (ns1 := alter (set_component c) ref ns) in *.
  generalize (match component with None => comps ++ [c] | Some _ => comps end).
  intros comps1.
  pose proof (for_of_fuel (λ target, visit fuel links target (Some c)) fuel
                (λ t, IH t (Some c))
                ((λ link, Graph.find link ns1) <$> oppositeEnds links (id v))
                (ns1, comps1) ltac:(simpl; lia)) as Hloop.
  destruct (for_of _ _ _); simpl in *; [lia|done..].
Qed.

(** More fuel never changes what [visit] returns. *)
Lemma visit_fuel_mono links fuel :
  ∀ fuel' source component st,
    (fuel ≤ fuel')%nat →
    visit fuel links source component st ≠ OutOfFuel →
    visit fuel' links source component st = visit fuel links source component st.
Proof.
  induction fuel as [|fuel IH]; intros fuel' source component st Hle Hr; [done|].
  destruct fuel' as [|fuel']; [lia|]. rewrite visit_S in Hr. rewrite !visit_S.
  destruct source as [ref|]; [|done]. destruct (st.1 !! ref) as [v|]; [|done].
  destruct (decide _); [done|]. cbv zeta in *.
  set (c := default _ component) in *.
  generalize dependent (alter (set_component c) ref st.1, match component with
                         | None => st.2 ++ [c] | Some _ => st.2 end).
  generalize ((λ link, Graph.find link (alter (set_component c) ref st.1))
                <$> oppositeEnds links (id v)).
  intros ts. induction ts as [|t ts IHts]; intros st1 Hr; [done|]. cbn [for_of] in *.
  rewrite (IH fuel' t (Some c) st1) by (lia || by destruct (visit fuel links t _ st1)).
  destruct (visit fuel links t (Some c) st1) as [st2| |]; simpl in *; [|done..].
  by apply IHts.
Qed.

(** On every graph whatsoever, the fuel [identifyComponents] hands to
    [visit] suffices. *)
Lemma identifyComponents_fuel (graph : LinkGraph) :
  identifyComponents graph ≠ OutOfFuel.
Proof.
  unfold identifyComponents.
  pose proof (for_of_fuel
                (λ idx st, visit (visitFuel (nodes graph)) (links graph) (Some idx) None st)
                (visitFuel (nodes graph))
                (λ idx, visit_fuel (links graph) _ (Some idx) None)
                (seq 0 (length (nodes graph))) (nodes graph, [])) as H.
  destruct (for_of _ _ _); [done|done|]. intros _. apply H. simpl.
  pose proof (unassigned_le_length (nodes graph)). unfold visitFuel. lia.
Qed.

(** ** Adjacency *)

Section Adjacency.
Variable es : list GraphEdge.

Lemma adjacent_sym x y : adjacent es x y → adjacent es y x.
Proof. intros (e & He & H). exists e. tauto. Qed.

Lemma connected_sym x y : connected es x y → connected es y x.
Proof.
  induction 1 as [|x y z Hxy _ IH]; [apply rtc_refl|].
  eapply rtc_r; [done|]. by apply adjacent_sym.
Qed.

Lemma adjacent_endpoint x y : adjacent es x y → endpoint es x ∧ endpoint es y.
Proof. intros (e & He & H). split; exists e; tauto. Qed.

Lemma elem_of_oppositeEnds x y : y ∈ oppositeEnds es x ↔ adjacent es x y.
Proof.
  unfold oppositeEnds, adjacent. rewrite list_elem_of_fmap. split.
  - intros (e & -> & [He Hin]%list_elem_of_filter). exists e. split; [done|].
    destruct (decide (target e = x)); [tauto|]. left. tauto.
  - intros (e & Hin & H). exists e. rewrite list_elem_of_filter. split; [|tauto].
    destruct (decide (target e = x)) as [Ht|Ht];
      destruct H as [[??]|[??]]; congruence.
Qed.

Lemma connected_no_arc x y : ¬ endpoint es x → connected es x y → x = y.
Proof.
  intros Hx. inversion 1 as [|? z ? Hadj _]; [done|].
  by apply adjacent_endpoint in Hadj as [? _].
Qed.

Lemma adjacent_closed ns x y :
  edges_closed ns es → adjacent es x y → x ∈ ids ns ∧ y ∈ ids ns.
Proof.
  intros Hc (e & He & H). destruct (Hc e He) as [??].
  destruct H as [[<- <-]|[<- <-]]; tauto.
Qed.
End Adjacency.

(** ** The component labeler *)

Section Labeling.
Variable es : list GraphEdge.
Variable ns0 : list GraphVertex.
Hypothesis Hnd : NoDup (ids ns0).
Hypothesis Hclosed : edges_closed ns0 es.

Implicit Types (ns : list GraphVertex) (v w : GraphVertex) (x y z c t : string).
Implicit Types (st : labeling).

Lemma inv_NoDup ns : erase ns = erase ns0 → NoDup (ids ns).
Proof using Hnd. intros H. by rewrite (erase_eq_ids _ _ H). Qed.

Lemma reach_post_nil c y ns : reach_post es c y [] ns ns.
Proof.
  split; [done|done|done| |done]. by intros t ?%elem_of_nil.
Qed.

Lemma reach_post_skip c y ns : componentOf ns y ≠ NONE_COMPONENT → reach_post es c y [y] ns ns.
Proof.
  intros Hy. split; [done|done|done| |done]. by intros t ->%list_elem_of_singleton.
Qed.

Lemma reach_post_app c y ts1 ts2 ns ns1 ns2 :
  reach_post es c y ts1 ns ns1 → reach_post es c y ts2 ns1 ns2 →
  reach_post es c y (ts1 ++ ts2) ns ns2.
Proof.
  intros [He1 Hk1 Hn1 Hd1 Hc1] [He2 Hk2 Hn2 Hd2 Hc2]. split.
  - congruence.
  - intros x Hx. rewrite Hk2; rewrite Hk1; done.
  - intros x Hx Hx2. destruct (decide (componentOf ns1 x = NONE_COMPONENT)) as [Hx1|Hx1].
    + by apply Hn2.
    + rewrite Hk2 by done. rewrite Hk2 in Hx2 by done. by apply Hn1.
  - intros t [Ht|Ht]%elem_of_app; [|by apply Hd2].
    rewrite Hk2; by apply Hd1.
  - intros G HG. by apply Hc2, Hc1.
Qed.

Lemma reach_post_via c y t ts ns ns' :
  adjacent es y t → reach_post es c t ts ns ns' → reach_post es c y ts ns ns'.
Proof.
  intros Hadj [He Hk Hn Hd Hc]. split; [done|done| |done|done].
  intros x Hx Hx'. destruct (Hn x Hx Hx') as [? Hconn]. split; [done|].
  by eapply rtc_l.
Qed.

Lemma reach_post_body c i v ns ns' :
  erase ns = erase ns0 → ns !! i = Some v →
  component v = NONE_COMPONENT → c ≠ NONE_COMPONENT →
  reach_post es c (id v) (oppositeEnds es (id v)) (alter (set_component c) i ns) ns' →
  reach_post es c (id v) [id v] ns ns'.
Proof using Hnd.
  intros Hns Hi Hv Hc [He Hk Hn Hd Hcl].
  pose proof (inv_NoDup ns Hns) as Hnd'.
  assert (∀ x, componentOf (alter (set_component c) i ns) x
               = if decide (x = id v) then c else componentOf ns x) as Halt.
  { intros x. by apply componentOf_alter. }
  assert (componentOf ns (id v) = NONE_COMPONENT) as Hy.
  { rewrite componentOf_elem; eauto using list_elem_of_lookup_2. }
  assert (componentOf ns' (id v) = c) as Hy'.
  { rewrite Hk; rewrite Halt, decide_True; done. }
  split.
  - by rewrite He, erase_alter.
  - intros x Hx. assert (x ≠ id v) by congruence.
    rewrite Hk; rewrite Halt, decide_False; done.
  - intros x Hx Hx'. destruct (decide (x = id v)) as [->|Hne].
    + split; [done|apply rtc_refl].
    + apply Hn; [|done]. by rewrite Halt, decide_False.
  - intros t ->%list_elem_of_singleton. congruence.
  - intros G HG.
    assert (closed_outside es (λ x, G x ∨ x = id v) ns') as HG'.
    { apply Hcl. intros x z Hx HGx Hadj. rewrite Halt in Hx |- *.
      destruct (decide (x = id v)) as [->|Hxv]; [tauto|].
      destruct (decide (z = id v)); [done|].
      apply (HG x z); tauto. }
    intros x z Hx HGx Hadj. destruct (decide (x = id v)) as [->|Hxv].
    + by apply Hd, elem_of_oppositeEnds.
    + apply (HG' x z); tauto.
Qed.

(** The loop over [allTargets]; [nsF] is the array the references were
    resolved in. *)
Lemma loop_ok fuel c y nsF :
  visit_ok es ns0 fuel c → erase nsF = erase ns0 →
  ∀ ts st, erase st.1 = erase ns0 → (∀ t, t ∈ ts → adjacent es y t) →
    match for_of ((λ link, Graph.find link nsF) <$> ts)
                 (λ target, visit fuel es target (Some c)) st with
    | Ok st' => st'.2 = st.2 ∧ reach_post es c y ts st.1 st'.1
    | Throw _ => False
    | OutOfFuel => True
    end.
Proof using Hnd Hclosed.
  intros IH HF. induction ts as [|t ts IHts]; intros st Hst Hadj.
  - simpl. split; [done|apply reach_post_nil].
  - rewrite fmap_cons. cbn [for_of].
    assert (adjacent es y t) as Hyt by (apply Hadj; left).
    destruct (adjacent_closed es ns0 y t Hclosed Hyt) as [_ Ht].
    rewrite (find_ids_eq t nsF st.1) by (apply erase_eq_ids; congruence).
    rewrite <- (erase_eq_ids _ _ Hst) in Ht.
    destruct (find_is_Some t st.1 Ht) as [i Hi]. rewrite Hi.
    destruct (find_Some _ _ _ Hi) as (v & Hv & <-).
    specialize (IH i v st Hst Hv).
    destruct (visit fuel es (Some i) (Some c) st) as [st1| |]; simpl; [|done..].
    destruct IH as [Hcomps Hpost].
    assert (erase st1.1 = erase ns0) as Hst1 by (by rewrite (post_erase _ _ _ _ _ _ Hpost)).
    specialize (IHts st1 Hst1 (λ t Ht, Hadj t (list_elem_of_further _ _ _ Ht))).
    destruct (for_of _ _ st1) as [st2| |]; [|done..].
    destruct IHts as [Hcomps2 Hpost2]. split; [congruence|].
    change (id v :: ts) with ([id v] ++ ts).
    eapply reach_post_app; [|done]. by eapply reach_post_via.
Qed.

Lemma body_ok fuel c i v ns comps :
  visit_ok es ns0 fuel c → c ≠ NONE_COMPONENT →
  erase ns = erase ns0 → ns !! i = Some v → component v = NONE_COMPONENT →
  match for_of ((λ link, Graph.find link (alter (set_component c) i ns))
                  <$> oppositeEnds es (id v))
               (λ target, visit fuel es target (Some c))
               (alter (set_component c) i ns, comps) with
  | Ok st' => st'.2 = comps ∧ reach_post es c (id v) [id v] ns st'.1
  | Throw _ => False
  | OutOfFuel => True
  end.
Proof using Hnd Hclosed.
  intros IH Hc Hns Hi Hv.
  assert (erase (alter (set_component c) i ns) = erase ns0) as Hns1
    by (by rewrite erase_alter).
  pose proof (loop_ok fuel c (id v) _ IH Hns1 (oppositeEnds es (id v))
                (alter (set_component c) i ns, comps) Hns1
                (λ t Ht, proj1 (elem_of_oppositeEnds es (id v) t) Ht)) as Hloop.
  destruct (for_of _ _ _) as [st'| |]; [|done..].
  destruct Hloop as [Hcomps Hpost]. split; [done|]. by eapply reach_post_body.
Qed.

Lemma visit_ok_all c : c ≠ NONE_COMPONENT → ∀ fuel, visit_ok es ns0 fuel c.
Proof using Hnd Hclosed.
  intros Hc. induction fuel as [|fuel IH]; intros i v [ns comps] Hns Hi; [done|].
  rewrite visit_S. simpl in *. rewrite Hi.
  destruct (decide _) as [Hg|Hg].
  - split; [done|]. apply reach_post_skip.
    rewrite componentOf_elem; eauto using inv_NoDup, list_elem_of_lookup_2.
    destruct Hg as [?|[= ->]]; done.
  - apply visit_guard_false in Hg as (Hv & _ & _). by apply body_ok.
Qed.

Lemma connected_labelled ns x z :
  closed_outside es (λ _, False) ns →
  componentOf ns x ≠ NONE_COMPONENT → connected es x z →
  componentOf ns z ≠ NONE_COMPONENT.
Proof.
  intros Hcl Hx Hconn. induction Hconn as [|x y z Hadj _ IH]; [done|].
  apply IH. apply (Hcl x y); tauto.
Qed.

Lemma componentName_fresh comps x :
  comps = componentName <$> seq 1 (length comps) →
  x ∈ comps → x ≠ componentName (length comps + 1).
Proof.
  intros Hcomps Hx ->.
  assert (componentName (length comps + 1) ∈ componentName <$> seq 1 (length comps)) as H
    by (by rewrite <- Hcomps).
  apply list_elem_of_fmap in H as (k & Heq%componentName_inj & Hk%elem_of_seq). lia.
Qed.

(** One more component: the labelling stays a partition into connected
    components. *)
Lemma top_inv_extend ns comps y ns' :
  top_inv es ns0 (ns, comps) →
  componentOf ns y = NONE_COMPONENT →
  reach_post es (componentName (length comps + 1)) y [y] ns ns' →
  top_inv es ns0 (ns', comps ++ [componentName (length comps + 1)]).
Proof.
  set (c := componentName (length comps + 1)).
  intros (Hns & Hcomps & Hin & Hpart) Hy [He Hk Hn Hd Hcl]. simpl in *.
  assert (∀ x, componentOf ns x ≠ c) as Hfresh.
  { intros x Hx. destruct (decide (componentOf ns x = NONE_COMPONENT)) as [Heq|Hne].
    - by rewrite Hx in Heq.
    - apply (componentName_fresh comps (componentOf ns x)); auto. }
  assert (closed_outside es (λ _, False) ns') as Hcl'.
  { apply Hcl. intros x z Hx _ Hadj.
    rewrite <- (proj2 (Hpart x z Hx)); [done|]. by apply rtc_once. }
  assert (∀ x, connected es y x → componentOf ns' x = c) as Hin_c.
  { intros x Hyx. apply Hn.
    - destruct (decide (componentOf ns x = NONE_COMPONENT)) as [|Hx]; [done|].
      exfalso. apply Hx. rewrite <- Hy. apply Hpart; [done|by apply connected_sym].
    - eapply connected_labelled; [done| |done]. apply Hd. left. }
  assert (∀ x, componentOf ns' x = c → connected es y x) as Hc_in.
  { intros x Hx. apply Hn.
    - destruct (decide (componentOf ns x = NONE_COMPONENT)) as [|Hne]; [done|].
      destruct (Hfresh x). by rewrite <- Hk.
    - by rewrite Hx. }
  assert (∀ x, componentOf ns' x ≠ NONE_COMPONENT → componentOf ns' x ≠ c →
               componentOf ns x ≠ NONE_COMPONENT) as Hold.
  { intros x Hx Hxc Heq. by destruct (Hn x Heq Hx). }
  split_and!; simpl.
  - congruence.
  - rewrite length_app. simpl. rewrite seq_app, fmap_app, <- Hcomps. simpl.
    by rewrite (Nat.add_comm 1).
  - intros x Hx. apply elem_of_app.
    destruct (decide (componentOf ns x = NONE_COMPONENT)) as [Heq|Hne].
    + right. apply list_elem_of_singleton. by apply Hn.
    + left. rewrite Hk by done. by apply Hin.
  - intros x z Hx. destruct (decide (componentOf ns' x = c)) as [Hxc|Hxc].
    + rewrite Hxc. split.
      * intros Hz. etrans; [apply connected_sym|]; eauto.
      * intros Hxz. symmetry. apply Hin_c. etrans; eauto.
    + pose proof (Hold x Hx Hxc) as Hx0. rewrite (Hk x Hx0). split.
      * intros Heq. apply Hpart; [done|].
        assert (componentOf ns z ≠ NONE_COMPONENT) as Hz0.
        { apply Hold; rewrite <- Heq; [done|apply Hfresh]. }
        rewrite Heq. by apply Hk.
      * intros Hxz. pose proof (proj2 (Hpart x z Hx0) Hxz) as Heq.
        rewrite Hk; [done|]. by rewrite <- Heq.
Qed.

(** One top-level call [visit(node)] of the [forEach]. *)
Lemma top_step fuel i v st :
  (length ns0 < fuel)%nat → top_inv es ns0 st → st.1 !! i = Some v →
  match visit fuel es (Some i) None st with
  | Ok st' =>
      top_inv es ns0 st'
      ∧ (∀ x, componentOf st.1 x ≠ NONE_COMPONENT → componentOf st'.1 x ≠ NONE_COMPONENT)
      ∧ componentOf st'.1 (id v) ≠ NONE_COMPONENT
  | Throw _ => False
  | OutOfFuel => False
  end.
Proof using Hnd Hclosed.
  intros Hfuel Hinv Hi.
  assert (erase st.1 = erase ns0) as Hns by apply Hinv.
  assert (unassigned st.1 < fuel)%nat as Hlt.
  { pose proof (unassigned_le_length st.1). rewrite (erase_eq_length _ _ Hns) in *. lia. }
  pose proof (visit_fuel es fuel (Some i) None st Hlt) as Hnofuel.
  destruct fuel as [|fuel]; [lia|]. rewrite visit_S in *.
  destruct st as [ns comps]. simpl in *. rewrite Hi in *.
  assert (componentOf ns (id v) = component v) as Hcv.
  { apply componentOf_elem; eauto using inv_NoDup, list_elem_of_lookup_2. }
  destruct (decide _) as [Hg|Hg].
  - simpl. split_and!; [done|done|]. rewrite Hcv. by destruct Hg.
  - apply visit_guard_false in Hg as (Hv & _ & _).
    pose proof (body_ok fuel (componentName (length comps + 1)) i v ns
                  (comps ++ [componentName (length comps + 1)])
                  (visit_ok_all _ (componentName_not_NONE _) fuel)
                  (componentName_not_NONE _) Hns Hi Hv) as Hbody.
    destruct (for_of _ _ _) as [[ns' comps']| |]; [|done..].
    simpl in *. destruct Hbody as [-> Hpost]. split_and!.
    + apply (top_inv_extend ns comps (id v) ns'); [done|congruence|done].
    + intros x Hx. by rewrite (post_keep _ _ _ _ _ _ Hpost).
    + apply (post_done _ _ _ _ _ _ Hpost). left.
Qed.

Lemma top_loop fuel :
  (length ns0 < fuel)%nat →
  ∀ idxs st, top_inv es ns0 st → (∀ i, i ∈ idxs → (i < length ns0)%nat) →
    match for_of idxs (λ idx st, visit fuel es (Some idx) None st) st with
    | Ok st' =>
        top_inv es ns0 st'
        ∧ (∀ x, componentOf st.1 x ≠ NONE_COMPONENT → componentOf st'.1 x ≠ NONE_COMPONENT)
        ∧ (∀ i v, i ∈ idxs → ns0 !! i = Some v → componentOf st'.1 (id v) ≠ NONE_COMPONENT)
    | Throw _ => False
    | OutOfFuel => False
    end.
Proof using Hnd Hclosed.
  intros Hfuel. induction idxs as [|i idxs IH]; intros st Hinv Hidx.
  - simpl. split_and!; [done|done|]. by intros i v ?%elem_of_nil.
  - cbn [for_of].
    assert (erase st.1 = erase ns0) as Hns by apply Hinv.
    destruct (lookup_lt_is_Some_2 st.1 i) as [v Hv].
    { rewrite (erase_eq_length _ _ Hns). apply Hidx. left. }
    pose proof (top_step fuel i v st Hfuel Hinv Hv) as Hstep.
    destruct (visit fuel es (Some i) None st) as [st1| |]; simpl; [|done..].
    destruct Hstep as (Hinv1 & Hmono1 & Hv1).
    specialize (IH st1 Hinv1 (λ j Hj, Hidx j (list_elem_of_further _ _ _ Hj))).
    destruct (for_of idxs _ st1) as [st2| |]; [|done..].
    destruct IH as (Hinv2 & Hmono2 & Hall2). split_and!; [done|by auto|].
    intros j w [->|Hj]%elem_of_cons Hw; [|by eauto].
    apply Hmono2.
    destruct (erase_eq_lookup ns0 st.1 i w (eq_sym Hns) Hw) as (v' & Hv' & <- & _).
    congruence.
Qed.
End Labeling.

Lemma componentOf_unlabelled ns x :
  Forall (λ v, component v = NONE_COMPONENT) ns → componentOf ns x = NONE_COMPONENT.
Proof.
  induction 1 as [|v ns Hv _ IH]; [done|]. simpl. by destruct (decide _).
Qed.

(** On a graph with unique identifiers, arcs between its vertices and no
    labels yet, [identifyComponents] returns, and labels exactly the
    connected components. *)
Lemma identifyComponents_ok (g : LinkGraph) :
  NoDup (ids (nodes g)) → edges_closed (nodes g) (links g) →
  Forall (λ v, component v = NONE_COMPONENT) (nodes g) →
  ∃ st', identifyComponents g = Ok st'
    ∧ erase st'.1 = nodes g
    ∧ st'.2 = componentName <$> seq 1 (length st'.2)
    ∧ (∀ v, v ∈ st'.1 → component v ≠ NONE_COMPONENT ∧ component v ∈ st'.2)
    ∧ (∀ v w, v ∈ st'.1 → w ∈ st'.1 →
         (component v = component w ↔ connected (links g) (id v) (id w))).
Proof.
  intros Hnd Hclosed Hnone. unfold identifyComponents.
  assert (top_inv (links g) (nodes g) (nodes g, [])) as Hinv.
  { split_and!; [done|done|..]; intros x; simpl;
      by rewrite (componentOf_unlabelled _ _ Hnone). }
  pose proof (top_loop (links g) (nodes g) Hnd Hclosed (visitFuel (nodes g))
                ltac:(unfold visitFuel; lia) (seq 0 (length (nodes g))) _ Hinv
                ltac:(by intros i [_ ?]%elem_of_seq)) as Hloop.
  destruct (for_of _ _ _) as [[ns comps]| |]; [|done..]. simpl in *.
  destruct Hloop as ((Hns & Hcomps & Hin & Hpart) & _ & Hall). simpl in *.
  pose proof (inv_NoDup (nodes g) Hnd ns Hns) as Hnd'.
  assert (∀ v, v ∈ ns → componentOf ns (id v) = component v
                         ∧ component v ≠ NONE_COMPONENT) as Hv.
  { intros v Hin_v. pose proof (componentOf_elem ns v Hnd' Hin_v) as Hcv.
    split; [done|]. rewrite <- Hcv.
    apply list_elem_of_lookup in Hin_v as [i Hi].
    destruct (erase_eq_lookup ns (nodes g) i v Hns Hi) as (v0 & Hv0 & <- & _).
    eapply Hall; [|done]. apply elem_of_seq. split; [lia|].
    simpl. by eapply lookup_lt_Some. }
  eexists. split; [done|]. simpl. split_and!.
  - by rewrite Hns, erase_unlabelled.
  - done.
  - intros v Hin_v. destruct (Hv v Hin_v) as [Hcv Hne]. split; [done|].
    rewrite <- Hcv. apply Hin. by rewrite Hcv.
  - intros v w Hin_v Hin_w.
    destruct (Hv v Hin_v) as [Hcv Hne], (Hv w Hin_w) as [Hcw _].
    rewrite <- Hcv, <- Hcw. apply Hpart. by rewrite Hcv.
Qed.

(** ** The graph builder *)

Section BuildGraph.
Variable basename : string → string.

Implicit Types (db : JsMap.t (list string)) (g : LinkGraph).

Lemma elem_of_arcsOf db e :
  e ∈ arcsOf db ↔
  ∃ file outbound target,
    (file, outbound) ∈ db ∧ target ∈ outbound ∧ e = mkEdge file target 1.
Proof.
  unfold arcsOf. rewrite list_elem_of_bind. split.
  - intros ([file outbound] & (target & -> & Ht)%list_elem_of_fmap & Hin).
    by exists file, outbound, target.
  - intros (file & outbound & target & Hin & Ht & ->).
    exists (file, outbound). split; [|done]. apply list_elem_of_fmap. eauto.
Qed.

Lemma collect_links db g :
  links (collect basename db g) = links g ++ arcsOf db.
Proof.
  revert g. induction db as [|[file outbound] db IH]; intros g; simpl.
  - by rewrite app_nil_r.
  - rewrite IH. simpl. by rewrite <- app_assoc.
Qed.

Lemma collect_components db g :
  components (collect basename db g) = components g.
Proof.
  revert g. induction db as [|[file outbound] db IH]; intros g; simpl; [done|].
  by rewrite IH.
Qed.

Lemma collect_ids db g x :
  x ∈ ids (nodes (collect basename db g)) ↔ x ∈ ids (nodes g) ∨ x ∈ JsMap.keys db.
Proof.
  unfold JsMap.keys. revert g. induction db as [|[file outbound] db IH]; intros g.
  - simpl. rewrite elem_of_nil. tauto.
  - cbn [collect]. rewrite IH, fmap_cons, elem_of_cons. simpl.
    destruct (Graph.find file (nodes g)) as [i|] eqn:Hf.
    + destruct (find_Some _ _ _ Hf) as (v & Hv & <-).
      pose proof (lookup_ids _ _ _ Hv). naive_solver.
    + unfold ids. rewrite fmap_app, elem_of_app. simpl.
      rewrite list_elem_of_singleton. tauto.
Qed.

Lemma collect_NoDup db g :
  NoDup (ids (nodes g)) → NoDup (ids (nodes (collect basename db g))).
Proof.
  revert g. induction db as [|[file outbound] db IH]; intros g Hnd; [done|].
  cbn [collect]. apply IH. simpl.
  destruct (Graph.find file (nodes g)) as [i|] eqn:Hf; [done|].
  unfold ids. rewrite fmap_app. apply NoDup_app. split_and!; [done| |apply NoDup_singleton].
  intros x Hx ->%list_elem_of_singleton. by apply find_None in Hf.
Qed.

Lemma collect_Forall (P : GraphVertex → Prop) db g :
  (∀ file, P {| id := file; label := basename file;
                component := NONE_COMPONENT; isolate := true |}) →
  Forall P (nodes g) → Forall P (nodes (collect basename db g)).
Proof.
  intros HP. revert g. induction db as [|[file outbound] db IH]; intros g Hg; [done|].
  cbn [collect]. apply IH. simpl.
  destruct (Graph.find file (nodes g)); [done|].
  apply Forall_app. split; [done|]. by apply Forall_singleton.
Qed.

(** The loops that clear [isolate], run on a list of identifiers. *)
Lemma clearIsolate_loop xs :
  ∀ ns, NoDup (ids ns) →
    match for_of xs clearIsolate ns with
    | Ok ns' =>
        (∀ x, x ∈ xs → x ∈ ids ns)
        ∧ ns' = (λ v, if decide (id v ∈ xs) then set_isolate false v else v) <$> ns
    | Throw e => e = Error "Didnt find node" ∧ ∃ x, x ∈ xs ∧ x ∉ ids ns
    | OutOfFuel => False
    end.
Proof.
  induction xs as [|x xs IH]; intros ns Hnd.
  - simpl. split; [by intros x ?%elem_of_nil|].
    rewrite <- (list_fmap_id ns) at 1. by apply list_fmap_ext.
  - cbn [for_of]. unfold clearIsolate at 1.
    destruct (Graph.find x ns) as [i|] eqn:Hf; simpl.
    + destruct (find_Some _ _ _ Hf) as (v & Hv & <-).
      assert (ids (alter (set_isolate false) i ns) = ids ns) as Hids
        by by apply ids_alter.
      specialize (IH (alter (set_isolate false) i ns)). rewrite Hids in IH.
      specialize (IH Hnd). destruct (for_of xs _ _) as [ns'|e|]; [| |done].
      * destruct IH as [Hall ->]. split.
        { intros x [->|Hx]%elem_of_cons; [by eapply lookup_ids|by auto]. }
        rewrite (alter_by_id _ ns i v) by done.
        rewrite <- list_fmap_compose. apply list_fmap_ext. intros _ w _. simpl.
        destruct (decide (id w = id v)) as [Heq|Hne]; simpl.
        -- rewrite (decide_True (P := id w ∈ id v :: xs)) by (rewrite Heq; left).
           by destruct (decide _).
        -- apply decide_ext. rewrite elem_of_cons. naive_solver.
      * destruct IH as [-> (y & Hy & Hny)]. split; [done|].
        exists y. split; [by right|done].
    + split; [done|]. exists x. split; [left|by apply find_None].
Qed.

Lemma ids_fmap (f : GraphVertex → GraphVertex) ns :
  (∀ v, id (f v) = id v) → ids (f <$> ns) = ids ns.
Proof.
  intros Hf. unfold ids. rewrite <- list_fmap_compose.
  apply list_fmap_ext. intros _ v _. apply Hf.
Qed.

Lemma endpoint_sources_targets es x :
  endpoint es x ↔ x ∈ JsSet.of_list (source <$> es) ∨ x ∈ JsSet.of_list (target <$> es).
Proof.
  unfold endpoint. rewrite !JsSetFacts.elem_of_of_list, !list_elem_of_fmap.
  naive_solver.
Qed.

Lemma buildGraph_state self : exec (buildGraph basename) self = self.
Proof. done. Qed.

(** [buildGraph] either returns a graph as described by [built], or raises
    its error because some arc endpoint has no vertex. *)
Lemma buildGraph_spec self :
  match run (buildGraph basename) self with
  | Ok g => built basename (_fileLinkDatabase self) g
  | Throw e =>
      e = Error "Didnt find node"
      ∧ ∃ x, endpoint (arcsOf (_fileLinkDatabase self)) x
             ∧ x ∉ JsMap.keys (_fileLinkDatabase self)
  | OutOfFuel => False
  end.
Proof.
  unfold run, buildGraph. cbn [fst]. set (db := _fileLinkDatabase self).
  set (g0 := collect basename db emptyGraph).
  assert (links g0 = arcsOf db) as Hlinks by apply collect_links.
  assert (∀ x, x ∈ ids (nodes g0) ↔ x ∈ JsMap.keys db) as Hids.
  { intros x. unfold g0. rewrite collect_ids. simpl. rewrite elem_of_nil. tauto. }
  assert (NoDup (ids (nodes g0))) as Hnd0 by (apply collect_NoDup, NoDup_nil_2).
  assert (Forall (λ v, component v = NONE_COMPONENT ∧ isolate v = true
                       ∧ label v = basename (id v)) (nodes g0)) as Hfresh.
  { by apply collect_Forall. }
  set (sources := JsSet.of_list (source <$> links g0)).
  set (targets := JsSet.of_list (target <$> links g0)).
  assert (∀ x, endpoint (links g0) x ↔ x ∈ sources ∨ x ∈ targets) as Hend
    by apply endpoint_sources_targets.
  pose proof (clearIsolate_loop sources (nodes g0) Hnd0) as H1.
  destruct (for_of sources clearIsolate (nodes g0)) as [ns1|e|]; simpl; [| |done].
  2:{ destruct H1 as [-> (x & Hx & Hnx)]. split; [done|]. exists x.
      rewrite <- Hlinks, <- Hids, Hend. tauto. }
  destruct H1 as [Hall1 Hns1].
  assert (ids ns1 = ids (nodes g0)) as Hids1.
  { rewrite Hns1. apply ids_fmap. intros v. by destruct (decide _). }
  pose proof (clearIsolate_loop targets ns1) as H2. rewrite Hids1 in H2.
  specialize (H2 Hnd0).
  destruct (for_of targets clearIsolate ns1) as [ns2|e|]; simpl; [| |done].
  2:{ destruct H2 as [-> (x & Hx & Hnx)]. split; [done|]. exists x.
      rewrite <- Hlinks, <- Hids, Hend. tauto. }
  destruct H2 as [Hall2 Hns2].
  assert (ids ns2 = ids (nodes g0)) as Hids2.
  { rewrite Hns2, <- Hids1. apply ids_fmap. intros v. by destruct (decide _). }
  assert (edges_closed ns2 (links g0)) as Hclosed.
  { intros e He. rewrite Hids2. split.
    - apply Hall1, JsSetFacts.elem_of_of_list, list_elem_of_fmap. eauto.
    - apply Hall2, JsSetFacts.elem_of_of_list, list_elem_of_fmap. eauto. }
  assert (∀ v, v ∈ ns2 → component v = NONE_COMPONENT
                         ∧ label v = basename (id v)
                         ∧ (isolate v = false ↔ endpoint (links g0) (id v))) as Hns2'.
  { intros v. rewrite Hns2, Hns1, <- list_fmap_compose.
    intros (v0 & -> & Hv0)%list_elem_of_fmap.
    rewrite Forall_forall in Hfresh. destruct (Hfresh v0 Hv0) as (Hc & Hi & Hl).
    rewrite Hend. simpl.
    destruct (decide (id v0 ∈ sources)) as [Hs|Hs]; simpl;
      destruct (decide (id v0 ∈ targets)) as [Ht|Ht]; simpl;
      (split_and!; [done|done|]); rewrite ?Hi; naive_solver. }
  destruct (identifyComponents_ok
              {| nodes := ns2; links := links g0; components := components g0 |})
    as ([ns comps] & -> & Herase & Hnames & Hlab & Hpart); simpl in *.
  { by rewrite Hids2. }
  { done. }
  { apply Forall_forall. intros v Hv. by apply Hns2'. }
  assert (ids ns = ids (nodes g0)) as Hids3.
  { by rewrite <- Hids2, <- Herase, erase_ids. }
  assert (∀ v, v ∈ ns → set_component NONE_COMPONENT v ∈ ns2) as Hback.
  { intros v Hv. rewrite <- Herase. by apply list_elem_of_fmap_2. }
  split; simpl.
  - done.
  - intros x. by rewrite Hids3.
  - by rewrite Hids3.
  - intros e He. rewrite Hids3, <- Hids2. by apply Hclosed.
  - intros v Hv. by destruct (Hns2' _ (Hback v Hv)) as (_ & ? & _).
  - intros v Hv. by destruct (Hns2' _ (Hback v Hv)) as (_ & _ & ?).
  - done.
  - done.
  - done.
Qed.
End BuildGraph.

(** ** Scenarios *)

Example scenario_pairs :
  run (buildGraph posixBasename) pairsIndex = Ok pairsGraph.
Proof. vm_compute. reflexivity. Qed.

Example scenario_pairs_index :
  _fileLinkDatabase pairsIndex
  = [ ("/notes/a.md", ["/notes/b.md"]); ("/notes/b.md", []);
      ("/notes/c.md", ["/notes/d.md"; "/notes/c.md"]); ("/notes/d.md", ["/notes/c.md"]);
      ("/notes/e.md", []) ]
  ∧ _idLinkDatabase pairsIndex = [ ("1", ["/notes/b.md"]) ].
Proof. vm_compute. by split. Qed.

Example scenario_single_isolate :
  run (buildGraph posixBasename) (after [report resolveAll "a.md" [] None] new_provider)
  = Ok {| nodes := [mkVertex "a.md" "a.md" "Component 1" true];
          links := [];
          components := ["Component 1"] |}.
Proof. vm_compute. reflexivity. Qed.

Example scenario_link_to_reported :
  run (buildGraph posixBasename)
      (after [report resolveAll "a.md" ["b.md"] None; report resolveAll "b.md" [] None]
             new_provider)
  = Ok {| nodes := [mkVertex "a.md" "a.md" "Component 1" false;
                    mkVertex "b.md" "b.md" "Component 1" false];
          links := [mkEdge "a.md" "b.md" 1];
          components := ["Component 1"] |}.
Proof. vm_compute. reflexivity. Qed.

Example scenario_inbound_order :
  run (retrieveInbound "/notes/c.md") pairsIndex = Ok ["/notes/c.md"; "/notes/d.md"].
Proof. vm_compute. reflexivity. Qed.

Lemma targets_reported_Forall (db : JsMap.t (list string)) :
  Forall (λ kv, Forall (λ target, target ∈ JsMap.keys db) kv.2) db → targets_reported db.
Proof.
  rewrite Forall_forall. intros Hall file outbound target Hin Ht.
  specialize (Hall _ Hin). rewrite Forall_forall in Hall. by apply Hall.
Qed.

(** Closed decidable facts, by evaluation. *)
Ltac by_evaluation :=
  lazymatch goal with
  | |- ?P => refine (@bool_decide_unpack P _ _); vm_compute; exact I
  end.

(** * The claims *)

Section GraphClaims.
Variable basename : string → string.

(** C1, as amended.  On every index state in which each stored outbound
    target is itself a key of the file database, [buildGraph] returns a
    graph, and in that graph the source and the target of every arc have a
    vertex in [nodes].  Vertices exist for the keys of the file database
    only: none is added for an identifier that occurs only as a target. *)
Theorem buildGraph_endpoints_have_vertices (self : LinkProvider) :
  targets_reported (_fileLinkDatabase self) →
  ∃ g, run (buildGraph basename) self = Ok g
    ∧ (∀ e, e ∈ links g →
         (∃ v, v ∈ nodes g ∧ id v = source e) ∧ (∃ v, v ∈ nodes g ∧ id v = target e))
    ∧ (∀ x, (∃ v, v ∈ nodes g ∧ id v = x) ↔ x ∈ JsMap.keys (_fileLinkDatabase self)).
Proof.
  intros Hrep. pose proof (buildGraph_spec basename self) as Hspec.
  destruct (run (buildGraph basename) self) as [g|e|]; [| |done].
  - assert (∀ x, x ∈ ids (nodes g) ↔ ∃ v, v ∈ nodes g ∧ id v = x) as Hid.
    { intros x. unfold ids. rewrite list_elem_of_fmap. naive_solver. }
    exists g. split; [done|]. split.
    + intros e He. rewrite <- !Hid. by apply (built_closed _ _ _ Hspec).
    + intros x. rewrite <- Hid. apply (built_ids _ _ _ Hspec).
  - destruct Hspec as [_ (x & (arc & He & Hx) & Hnx)]. exfalso. apply Hnx.
    apply elem_of_arcsOf in He as (file & outbound & target & Hin & Ht & ->).
    simpl in Hx. destruct Hx as [<-|<-].
    + unfold JsMap.keys. apply list_elem_of_fmap. by exists (file, outbound).
    + by eapply Hrep.
Qed.

(** C2.  When some stored outbound target is not a key of the file
    database, [buildGraph] raises its internal error and returns no graph;
    and whenever [buildGraph] raises, it is that error, raised because
    [nodes.find] came back empty for the source or target of an arc.  It
    has no third outcome. *)
Theorem buildGraph_throws_on_missing_vertex (self : LinkProvider) :
  let db := _fileLinkDatabase self in
  let graph := collect basename db emptyGraph in
  (∀ file outbound target,
     (file, outbound) ∈ db → target ∈ outbound → target ∉ JsMap.keys db →
     run (buildGraph basename) self = Throw (Error "Didnt find node"))
  ∧ (∀ e, run (buildGraph basename) self = Throw e →
       e = Error "Didnt find node"
       ∧ ∃ x, endpoint (links graph) x ∧ Graph.find x (nodes graph) = None)
  ∧ run (buildGraph basename) self ≠ OutOfFuel.
Proof.
  intros db graph. pose proof (buildGraph_spec basename self) as Hspec.
  fold db in Hspec. split_and!.
  - intros file outbound target Hin Ht Hkey.
    destruct (run (buildGraph basename) self) as [g|e|]; [|by destruct Hspec as [-> _]|done].
    exfalso. apply Hkey, (built_ids _ _ _ Hspec).
    apply (built_closed _ _ _ Hspec (mkEdge file target 1)).
    rewrite (built_links _ _ _ Hspec). apply elem_of_arcsOf. eauto 6.
  - intros e He. rewrite He in Hspec. destruct Hspec as [-> (x & Hx & Hnx)].
    split; [done|]. exists x. unfold graph. rewrite collect_links. split; [done|].
    apply find_None. rewrite collect_ids. simpl. rewrite elem_of_nil. tauto.
  - by destruct (run (buildGraph basename) self).
Qed.

(** C4.  In every graph [buildGraph] returns, the component labels
    partition the vertices: vertices are unique by identifier, each carries
    one label, which is not the sentinel and is listed in [components], and
    two vertices carry the same label exactly when a path of arcs, taken in
    either direction, connects them. *)
Theorem buildGraph_components_partition (self : LinkProvider) (g : LinkGraph) :
  run (buildGraph basename) self = Ok g →
  NoDup (id <$> nodes g)
  ∧ (∀ v, v ∈ nodes g → component v ≠ NONE_COMPONENT ∧ component v ∈ components g)
  ∧ (∀ v w, v ∈ nodes g → w ∈ nodes g →
       (component v = component w ↔ connected (links g) (id v) (id w))).
Proof.
  intros Hrun. pose proof (buildGraph_spec basename self) as Hspec.
  rewrite Hrun in Hspec. split_and!.
  - apply (built_NoDup _ _ _ Hspec).
  - apply (built_labelled _ _ _ Hspec).
  - apply (built_partition _ _ _ Hspec).
Qed.

(** C5.  In every graph [buildGraph] returns, a vertex has [isolate]
    false exactly when its identifier is the source or the target of some
    arc; a vertex on no arc has [isolate] true and shares its component
    label with no other vertex. *)
Theorem buildGraph_isolate_flags (self : LinkProvider) (g : LinkGraph) (v : GraphVertex) :
  run (buildGraph basename) self = Ok g → v ∈ nodes g →
  (isolate v = false ↔ ∃ e, e ∈ links g ∧ (source e = id v ∨ target e = id v))
  ∧ ((∀ e, e ∈ links g → source e ≠ id v ∧ target e ≠ id v) →
       isolate v = true ∧ ∀ w, w ∈ nodes g → component w = component v → w = v).
Proof.
  intros Hrun Hv. pose proof (buildGraph_spec basename self) as Hspec.
  rewrite Hrun in Hspec. pose proof (built_isolate _ _ _ Hspec v Hv) as Hiso.
  split; [done|]. intros Hnone.
  assert (¬ endpoint (links g) (id v)) as Hne.
  { intros (e & He & Hx). destruct (Hnone e He). tauto. }
  split.
  - destruct (isolate v); [done|]. by destruct Hne; apply Hiso.
  - intros w Hw Heq. eapply NoDup_ids_elem_of; [apply (built_NoDup _ _ _ Hspec)|done..|].
    symmetry. eapply connected_no_arc; [done|].
    by apply (built_partition _ _ _ Hspec).
Qed.

(** C10.  [buildGraph], [retrieveInbound] and [retrieveOutbound] leave the
    instance as it was: both databases are the same after the call as
    before it, whatever the call returns or raises. *)
Theorem reads_leave_index_unchanged (self : LinkProvider) (sourceFilePath : string) :
  exec (buildGraph basename) self = self
  ∧ exec (retrieveInbound sourceFilePath) self = self
  ∧ exec (retrieveOutbound sourceFilePath) self = self.
Proof. done. Qed.
End GraphClaims.

Section ScenarioClaims.
Variable findExact : string → option string.
Variable basename : string → string.

(** C3, as amended.  From an empty index, with a resolver that resolves
    the token b.md to the identifier b.md, report(a.md, [b.md]) then
    report(c.md, [b.md]) followed by [buildGraph] raises the internal
    error: b.md never reported, so it has no vertex.  Once b.md has
    reported as well, [buildGraph] returns a graph whose vertices are
    a.md, c.md and b.md, all carrying one and the same component label. *)
Theorem scenario_bridge :
  findExact "b.md" = Some "b.md" →
  let reported :=
    after [report findExact "a.md" ["b.md"] None;
           report findExact "c.md" ["b.md"] None] new_provider in
  run (buildGraph basename) reported = Throw (Error "Didnt find node")
  ∧ ∃ g va vc vb,
      run (buildGraph basename) (exec (report findExact "b.md" [] None) reported) = Ok g
      ∧ nodes g = [va; vc; vb]
      ∧ id va = "a.md" ∧ id vc = "c.md" ∧ id vb = "b.md"
      ∧ component va = component vb ∧ component vc = component vb
      ∧ component vb ≠ NONE_COMPONENT.
Proof.
  intros Hb. unfold after, exec, report. simpl. rewrite !Hb. simpl.
  split; [vm_compute; reflexivity|].
  eexists _, _, _, _. split; [vm_compute; reflexivity|]. simpl.
  split; [reflexivity|]. by split_and!.
Qed.
End ScenarioClaims.

Section IndexClaims.
Variable findExact : string → option string.

(** C6.  After report(sourcePath, outboundLinks, sourceID) the entry of
    the file database under sourcePath is the list of resolved tokens:
    each token mapped through the resolver, the unresolved ones dropped,
    order and duplicates kept.  It replaces whatever was stored there and
    leaves the other keys alone.  When sourceID is present and not empty,
    the same list is stored under sourceID in the ID database; otherwise
    the ID database is unchanged.  The call raises nothing. *)
Theorem report_stores_resolved_links (sourcePath : string) (outboundLinks : list string)
    (sourceID : option string) (self : LinkProvider) :
  let self' := exec (report findExact sourcePath outboundLinks sourceID) self in
  let resolved := omap findExact outboundLinks in
  run (report findExact sourcePath outboundLinks sourceID) self = Ok tt
  ∧ JsMap.get sourcePath (_fileLinkDatabase self') = Some resolved
  ∧ (∀ other, other ≠ sourcePath →
       JsMap.get other (_fileLinkDatabase self') = JsMap.get other (_fileLinkDatabase self))
  ∧ (∀ i, sourceID = Some i → i ≠ "" →
       JsMap.get i (_idLinkDatabase self') = Some resolved
       ∧ ∀ other, other ≠ i →
           JsMap.get other (_idLinkDatabase self') = JsMap.get other (_idLinkDatabase self))
  ∧ (sourceID = None ∨ sourceID = Some "" → _idLinkDatabase self' = _idLinkDatabase self).
Proof.
  intros self' resolved. unfold self'. rewrite report_files, report_ids. split_and!.
  - done.
  - apply JsMapFacts.get_set_eq.
  - intros other Hne. by apply JsMapFacts.get_set_ne.
  - intros i -> Hi. rewrite normalizeID_nonempty by done. split.
    + apply JsMapFacts.get_set_eq.
    + intros other Hne. by apply JsMapFacts.get_set_ne.
  - by intros [->| ->].
Qed.

(** C7.  Calling [report] twice in a row with the same arguments leaves
    both databases as the first call left them. *)
Theorem report_twice_same_index (sourcePath : string) (outboundLinks : list string)
    (sourceID : option string) (self : LinkProvider) :
  let once := exec (report findExact sourcePath outboundLinks sourceID) self in
  let twice := exec (report findExact sourcePath outboundLinks sourceID) once in
  _fileLinkDatabase twice = _fileLinkDatabase once
  ∧ _idLinkDatabase twice = _idLinkDatabase once.
Proof.
  intros once twice. unfold twice, once. rewrite !report_files, !report_ids. split.
  - apply JsMapFacts.set_set.
  - destruct (normalizeID sourceID); [apply JsMapFacts.set_set|done].
Qed.

(** C8.  A [remove] right after a [report] of the same path makes
    [retrieveOutbound] return the empty list.  A [remove] raises nothing,
    and leaves the file database unchanged when the path is not a key of
    it, and the ID database unchanged when the ID is not a key of it. *)
Theorem remove_after_report (sourcePath : string) (outboundLinks : list string)
    (sourceID : option string) (self : LinkProvider) :
  run (retrieveOutbound sourcePath)
      (exec (remove sourcePath sourceID)
            (exec (report findExact sourcePath outboundLinks sourceID) self)) = Ok []
  ∧ run (remove sourcePath sourceID) self = Ok tt
  ∧ (JsMap.get sourcePath (_fileLinkDatabase self) = None →
       _fileLinkDatabase (exec (remove sourcePath sourceID) self) = _fileLinkDatabase self)
  ∧ ((∀ i, sourceID = Some i → JsMap.get i (_idLinkDatabase self) = None) →
       _idLinkDatabase (exec (remove sourcePath sourceID) self) = _idLinkDatabase self).
Proof.
  split_and!.
  - unfold run, retrieveOutbound, exec at 1, remove. cbn [fst snd broadcastIpcMessage
      _fileLinkDatabase]. rewrite report_files. unfold JsMap.has.
    by rewrite JsMapFacts.get_set_eq, JsMapFacts.get_delete.
  - done.
  - intros Hget. unfold exec, remove, JsMap.has. simpl. by rewrite Hget.
  - intros Hget. unfold exec, remove, JsMap.has. simpl.
    destruct sourceID as [i|]; [|done]. specialize (Hget i eq_refl).
    destruct (normalizeID (Some i)) as [j|] eqn:Hn; [|done].
    assert (j = i) as -> by (destruct i; simpl in Hn; congruence).
    by rewrite Hget.
Qed.

(** C9.  When two distinct paths are reported one after the other under
    the same non-empty ID, the ID database holds the second report's
    resolved links under that ID, while the file database still holds the
    first report's resolved links under the first path. *)
Theorem report_same_id_later_wins (p1 p2 : string) (links1 links2 : list string)
    (sourceID : string) (self : LinkProvider) :
  p1 ≠ p2 → sourceID ≠ "" →
  let self' := exec (report findExact p2 links2 (Some sourceID))
                    (exec (report findExact p1 links1 (Some sourceID)) self) in
  JsMap.get sourceID (_idLinkDatabase self') = Some (omap findExact links2)
  ∧ JsMap.get p1 (_fileLinkDatabase self') = Some (omap findExact links1)
  ∧ JsMap.get p2 (_fileLinkDatabase self') = Some (omap findExact links2).
Proof.
  intros Hp Hid self'. unfold self'. rewrite !report_files, !report_ids.
  rewrite normalizeID_nonempty by done. split_and!.
  - apply JsMapFacts.get_set_eq.
  - rewrite JsMapFacts.get_set_ne by done. apply JsMapFacts.get_set_eq.
  - apply JsMapFacts.get_set_eq.
Qed.
End IndexClaims.

(** * The claims, on examples *)

(** C1 as stated fails: [a.md] links to [b.md], which never reported, and
    [buildGraph] returns no graph at all, let alone one with a vertex for
    [b.md]. *)
Lemma buildGraph_lazy_vertex_counterexample :
  run (buildGraph posixBasename) danglingIndex = Throw (Error "Didnt find node")
  ∧ ¬ ∃ g, run (buildGraph posixBasename) danglingIndex = Ok g
           ∧ ∀ e, e ∈ links g →
               (∃ v, v ∈ nodes g ∧ id v = source e) ∧ (∃ v, v ∈ nodes g ∧ id v = target e).
Proof.
  assert (run (buildGraph posixBasename) danglingIndex = Throw (Error "Didnt find node")) as H
    by (vm_compute; reflexivity).
  split; [done|]. intros (g & Hg & _). congruence.
Qed.

Lemma buildGraph_endpoints_have_vertices_witness :
  targets_reported (_fileLinkDatabase pairsIndex)
  ∧ ∃ g, run (buildGraph posixBasename) pairsIndex = Ok g
      ∧ (∀ e, e ∈ links g →
           (∃ v, v ∈ nodes g ∧ id v = source e) ∧ (∃ v, v ∈ nodes g ∧ id v = target e))
      ∧ (∀ x, (∃ v, v ∈ nodes g ∧ id v = x) ↔ x ∈ JsMap.keys (_fileLinkDatabase pairsIndex)).
Proof.
  assert (targets_reported (_fileLinkDatabase pairsIndex)) as H.
  { apply targets_reported_Forall. by_evaluation. }
  split; [exact H|]. exact (buildGraph_endpoints_have_vertices posixBasename pairsIndex H).
Defined.

Lemma buildGraph_throws_on_missing_vertex_witness :
  run (buildGraph posixBasename) danglingIndex = Throw (Error "Didnt find node")
  ∧ ∃ x, endpoint (links (collect posixBasename (_fileLinkDatabase danglingIndex) emptyGraph)) x
         ∧ Graph.find x (nodes (collect posixBasename (_fileLinkDatabase danglingIndex)
                                  emptyGraph)) = None.
Proof.
  destruct (buildGraph_throws_on_missing_vertex posixBasename danglingIndex) as (H1 & H2 & _).
  assert (run (buildGraph posixBasename) danglingIndex = Throw (Error "Didnt find node")) as H.
  { apply (H1 "/notes/a.md" ["/notes/b.md"] "/notes/b.md"); by_evaluation. }
  split; [exact H|]. exact (proj2 (H2 _ H)).
Defined.

(** C3 as stated fails: with every token resolving to itself, the two
    reports leave [b.md] without a vertex and [buildGraph] raises instead of
    returning a graph. *)
Lemma scenario_bridge_counterexample :
  resolveAll "b.md" = Some "b.md"
  ∧ ¬ ∃ g, run (buildGraph posixBasename)
               (after [report resolveAll "a.md" ["b.md"] None;
                       report resolveAll "c.md" ["b.md"] None] new_provider) = Ok g
           ∧ ∃ va vb vc, va ∈ nodes g ∧ vb ∈ nodes g ∧ vc ∈ nodes g
               ∧ id va = "a.md" ∧ id vb = "b.md" ∧ id vc = "c.md"
               ∧ component va = component vb ∧ component vb = component vc.
Proof.
  split; [reflexivity|]. intros (g & Hg & _). vm_compute in Hg. discriminate.
Qed.

Lemma scenario_bridge_witness :
  resolveAll "b.md" = Some "b.md"
  ∧ let reported :=
      after [report resolveAll "a.md" ["b.md"] None;
             report resolveAll "c.md" ["b.md"] None] new_provider in
    run (buildGraph posixBasename) reported = Throw (Error "Didnt find node")
    ∧ ∃ g va vc vb,
        run (buildGraph posixBasename) (exec (report resolveAll "b.md" [] None) reported) = Ok g
        ∧ nodes g = [va; vc; vb]
        ∧ id va = "a.md" ∧ id vc = "c.md" ∧ id vb = "b.md"
        ∧ component va = component vb ∧ component vc = component vb
        ∧ component vb ≠ NONE_COMPONENT.
Proof.
  split; [reflexivity|]. exact (scenario_bridge resolveAll posixBasename eq_refl).
Defined.

Lemma buildGraph_components_partition_witness :
  run (buildGraph posixBasename) pairsIndex = Ok pairsGraph
  ∧ NoDup (id <$> nodes pairsGraph)
  ∧ (∀ v, v ∈ nodes pairsGraph →
       component v ≠ NONE_COMPONENT ∧ component v ∈ components pairsGraph)
  ∧ (∀ v w, v ∈ nodes pairsGraph → w ∈ nodes pairsGraph →
       (component v = component w ↔ connected (links pairsGraph) (id v) (id w))).
Proof.
  assert (run (buildGraph posixBasename) pairsIndex = Ok pairsGraph) as H
    by (vm_compute; reflexivity).
  split; [exact H|].
  exact (buildGraph_components_partition posixBasename pairsIndex pairsGraph H).
Defined.

Lemma buildGraph_isolate_flags_witness :
  let v := mkVertex "/notes/e.md" "e.md" "Component 3" true in
  run (buildGraph posixBasename) pairsIndex = Ok pairsGraph
  ∧ v ∈ nodes pairsGraph
  ∧ (isolate v = false ↔ ∃ e, e ∈ links pairsGraph ∧ (source e = id v ∨ target e = id v))
  ∧ isolate v = true
  ∧ ∀ w, w ∈ nodes pairsGraph → component w = component v → w = v.
Proof.
  intros v.
  assert (run (buildGraph posixBasename) pairsIndex = Ok pairsGraph) as H
    by (vm_compute; reflexivity).
  assert (v ∈ nodes pairsGraph) as Hv by by_evaluation.
  assert (∀ e, e ∈ links pairsGraph → source e ≠ id v ∧ target e ≠ id v) as Hnone.
  { apply Forall_forall. by_evaluation. }
  destruct (buildGraph_isolate_flags posixBasename pairsIndex pairsGraph v H Hv) as [H1 H2].
  split; [exact H|]. split; [exact Hv|]. split; [exact H1|]. exact (H2 Hnone).
Defined.

Lemma report_stores_resolved_links_witness :
  let links := ["/notes/b.md"; "missing.md"; "/notes/c.md"; "/notes/b.md"] in
  let self' := exec (report resolveKnown "/notes/a.md" links (Some "1")) new_provider in
  JsMap.get "/notes/a.md" (_fileLinkDatabase self')
    = Some ["/notes/b.md"; "/notes/c.md"; "/notes/b.md"]
  ∧ JsMap.get "1" (_idLinkDatabase self')
    = Some ["/notes/b.md"; "/notes/c.md"; "/notes/b.md"].
Proof.
  intros links self'.
  destruct (report_stores_resolved_links resolveKnown "/notes/a.md" links (Some "1")
              new_provider) as (_ & Hfile & _ & Hid & _).
  split; [exact Hfile|]. apply (Hid "1"); [reflexivity|by_evaluation].
Defined.

Lemma remove_after_report_witness :
  run (remove "/notes/x.md" (Some "7")) pairsIndex = Ok tt
  ∧ _fileLinkDatabase (exec (remove "/notes/x.md" (Some "7")) pairsIndex)
    = _fileLinkDatabase pairsIndex
  ∧ _idLinkDatabase (exec (remove "/notes/x.md" (Some "7")) pairsIndex)
    = _idLinkDatabase pairsIndex.
Proof.
  destruct (remove_after_report resolveKnown "/notes/x.md" [] (Some "7") pairsIndex)
    as (_ & Hok & Hfile & Hid).
  split; [exact Hok|]. split.
  - apply Hfile. vm_compute. reflexivity.
  - apply Hid. intros i Hi. injection Hi as <-. vm_compute. reflexivity.
Defined.

Lemma report_same_id_later_wins_witness :
  let self' := exec (report resolveKnown "/notes/b.md" ["/notes/c.md"] (Some "1"))
                    (exec (report resolveKnown "/notes/a.md" ["/notes/b.md"; "missing.md"]
                                  (Some "1")) new_provider) in
  "/notes/a.md" ≠ "/notes/b.md" ∧ "1" ≠ ""
  ∧ JsMap.get "1" (_idLinkDatabase self') = Some ["/notes/c.md"]
  ∧ JsMap.get "/notes/a.md" (_fileLinkDatabase self') = Some ["/notes/b.md"]
  ∧ JsMap.get "/notes/b.md" (_fileLinkDatabase self') = Some ["/notes/c.md"].
Proof.
  intros self'.
  assert ("/notes/a.md" ≠ "/notes/b.md") as Hp by by_evaluation.
  assert ("1" ≠ "") as Hi by by_evaluation.
  split; [exact Hp|]. split; [exact Hi|].
  exact (report_same_id_later_wins resolveKnown "/notes/a.md" "/notes/b.md"
           ["/notes/b.md"; "missing.md"] ["/notes/c.md"] "1" new_provider Hp Hi).
Defined.

(** * Further properties *)

(** ** More about the containers *)

Lemma JsMap_get_Some_wf {V} k (v : V) (m : JsMap.t V) :
  JsMap.wf m → (JsMap.get k m = Some v ↔ (k, v) ∈ m).
Proof.
  unfold JsMap.wf, JsMap.keys. induction m as [|[k' v'] m IH]; simpl.
  - intros _. split; [done|by intros ?%elem_of_nil].
  - rewrite NoDup_cons, elem_of_cons. intros [Hk Hnd].
    destruct (decide (k' = k)) as [->|Hne].
    + split; [intros [= ->]; by left|].
      intros [[= ->]|Hin]; [done|]. destruct Hk. apply list_elem_of_fmap. by exists (k, v).
    + rewrite IH by done. split; [by right|]. intros [[= ??]|?]; [congruence|done].
Qed.

Lemma JsMap_get_delete_ne {V} k k' (m : JsMap.t V) :
  k ≠ k' → JsMap.get k' (JsMap.delete k m) = JsMap.get k' m.
Proof.
  intros Hne. unfold JsMap.delete. induction m as [|[k0 v0] m IH]; [done|].
  rewrite filter_cons. simpl. destruct (decide (k0 ≠ k)) as [H0|H0]; simpl.
  - by rewrite IH.
  - apply dec_stable in H0 as ->. by rewrite decide_False.
Qed.

Lemma JsMap_delete_absent {V} k (m : JsMap.t V) :
  JsMap.get k m = None → JsMap.delete k m = m.
Proof.
  unfold JsMap.delete. induction m as [|[k' v'] m IH]; [done|]. simpl.
  destruct (decide (k' = k)) as [->|Hne]; [done|]. intros Hget.
  rewrite filter_cons. simpl. rewrite decide_True by done. by rewrite IH.
Qed.

Lemma JsMap_delete_set_fresh {V} k (v : V) (m : JsMap.t V) :
  JsMap.get k m = None → JsMap.delete k (JsMap.set k v m) = m.
Proof.
  unfold JsMap.delete. induction m as [|[k' v'] m IH]; simpl.
  - intros _. rewrite filter_cons. simpl. by rewrite decide_False by (by intros ?).
  - destruct (decide (k' = k)) as [->|Hne]; [done|]. intros Hget.
    rewrite filter_cons. simpl. rewrite decide_True by done. by rewrite IH.
Qed.

Lemma JsMap_keys_delete {V} k (m : JsMap.t V) :
  JsMap.keys (JsMap.delete k m) = filter (λ k', k' ≠ k) (JsMap.keys m).
Proof.
  unfold JsMap.keys, JsMap.delete. induction m as [|[k' v'] m IH]; [done|].
  rewrite fmap_cons, !filter_cons. cbn [fst].
  destruct (decide (k' ≠ k)); [rewrite fmap_cons|]; by rewrite IH.
Qed.

Lemma JsMap_has_true {V} k (m : JsMap.t V) : JsMap.has k m = true ↔ k ∈ JsMap.keys m.
Proof.
  unfold JsMap.has. destruct (JsMap.get k m) eqn:Hget.
  - split; [intros _|done]. destruct (decide (k ∈ JsMap.keys m)) as [|Hn]; [done|].
    apply JsMapFacts.get_None in Hn. congruence.
  - split; [done|]. intros Hin. by apply JsMapFacts.get_None in Hget.
Qed.

(** [remove] deletes a key that is there and leaves the map alone otherwise:
    either way the result is the map without the key. *)
Lemma remove_files sourcePath sourceID self :
  _fileLinkDatabase (exec (remove sourcePath sourceID) self)
  = JsMap.delete sourcePath (_fileLinkDatabase self).
Proof.
  unfold exec, remove, JsMap.has. simpl.
  destruct (JsMap.get sourcePath _) eqn:Hget; [done|]. by rewrite JsMap_delete_absent.
Qed.

Lemma remove_ids sourcePath sourceID self :
  _idLinkDatabase (exec (remove sourcePath sourceID) self)
  = match normalizeID sourceID with
    | Some i => JsMap.delete i (_idLinkDatabase self)
    | None => _idLinkDatabase self
    end.
Proof.
  unfold exec, remove, JsMap.has. simpl. destruct (normalizeID sourceID) as [i|]; [|done].
  destruct (JsMap.get i _) eqn:Hget; [done|]. by rewrite JsMap_delete_absent.
Qed.

Lemma inboundScan_filter entries sourceFilePath sourceFiles :
  inboundScan entries sourceFilePath sourceFiles
  = sourceFiles ++ (filter (λ kv, sourceFilePath ∈ kv.2) entries).*1.
Proof.
  revert sourceFiles. induction entries as [|[file outbound] entries IH]; intros sourceFiles.
  - simpl. by rewrite app_nil_r.
  - cbn [inboundScan]. rewrite filter_cons. simpl.
    destruct (decide (sourceFilePath ∈ outbound)); rewrite IH; [|done].
    by rewrite <- app_assoc.
Qed.

Lemma elem_of_inboundOf self path source :
  source ∈ inboundOf self path ↔
  ∃ outbound, (source, outbound) ∈ _fileLinkDatabase self ∧ path ∈ outbound.
Proof.
  unfold inboundOf, run, retrieveInbound. simpl. rewrite inboundScan_filter. simpl.
  rewrite list_elem_of_fmap. split.
  - intros ([k o] & -> & [Hp Hin]%list_elem_of_filter). by exists o.
  - intros (o & Hin & Hp). exists (source, o). split; [done|].
    by apply list_elem_of_filter.
Qed.

Lemma outboundOf_get self path :
  outboundOf self path = default [] (JsMap.get path (_fileLinkDatabase self)).
Proof. done. Qed.

Lemma JsMap_elem_of_set {V} k (v : V) k' v' (m : JsMap.t V) :
  (k', v') ∈ JsMap.set k v m → (k', v') ∈ m ∨ (k' = k ∧ v' = v).
Proof.
  induction m as [|[k0 v0] m IH]; simpl.
  - intros [= -> ->]%list_elem_of_singleton. by right.
  - destruct (decide (k0 = k)) as [->|Hne].
    + intros [[= -> ->]|Hin]%elem_of_cons; [by right|]. left. by right.
    + intros [->|Hin]%elem_of_cons; [left; by left|].
      destruct (IH Hin) as [?|?]; [left; by right|by right].
Qed.

Lemma JsMap_elem_of_set_ne {V} k (v : V) k' v' (m : JsMap.t V) :
  k' ≠ k → ((k', v') ∈ JsMap.set k v m ↔ (k', v') ∈ m).
Proof.
  intros Hne. induction m as [|[k0 v0] m IH]; simpl.
  - rewrite list_elem_of_singleton, elem_of_nil. split; [congruence|done].
  - destruct (decide (k0 = k)) as [->|Hne0].
    + rewrite !elem_of_cons. split; (intros [[= ??]|?]; [congruence|by right]).
    + rewrite !elem_of_cons, IH. done.
Qed.

Lemma JsMap_elem_of_delete {V} k k' v' (m : JsMap.t V) :
  (k', v') ∈ JsMap.delete k m ↔ k' ≠ k ∧ (k', v') ∈ m.
Proof. unfold JsMap.delete. by rewrite list_elem_of_filter. Qed.

Lemma JsMap_delete_delete {V} k (m : JsMap.t V) :
  JsMap.delete k (JsMap.delete k m) = JsMap.delete k m.
Proof. apply JsMap_delete_absent, JsMapFacts.get_delete. Qed.

Lemma inbound_filter_delete (db : JsMap.t (list string)) path removed :
  (filter (λ kv, path ∈ kv.2) (JsMap.delete removed db)).*1
  = filter (λ source, source ≠ removed) (filter (λ kv, path ∈ kv.2) db).*1.
Proof.
  unfold JsMap.delete. induction db as [|[k o] db IH]; [done|].
  rewrite !filter_cons. cbn [fst snd].
  destruct (decide (k ≠ removed)) as [Hk|Hk]; destruct (decide (path ∈ o)) as [Ho|Ho];
    rewrite ?filter_cons, ?fmap_cons; cbn [fst snd];
    rewrite ?(decide_True (P := path ∈ o)) by done;
    rewrite ?(decide_False (P := path ∈ o)) by done;
    rewrite ?fmap_cons, ?filter_cons; cbn [fst snd];
    rewrite ?(decide_True (P := k ≠ removed)) by done;
    rewrite ?(decide_False (P := k ≠ removed)) by done;
    by rewrite IH.
Qed.

Lemma history_snoc findExact ms m :
  history findExact (ms ++ [m]) = exec (mutate findExact m) (history findExact ms).
Proof. unfold history, after. by rewrite fmap_app, foldl_app. Qed.

Lemma omap_resolved (findExact : string → option string) (outboundLinks : list string)
    (target : string) :
  target ∈ omap findExact outboundLinks → ∃ token, findExact token = Some target.
Proof. intros (token & _ & ?)%list_elem_of_omap. eauto. Qed.

Lemma mirror_wf (self : LinkProvider) (source target : string) :
  JsMap.wf (_fileLinkDatabase self) →
  (source ∈ inboundOf self target ↔ target ∈ outboundOf self source).
Proof.
  intros Hwf. rewrite elem_of_inboundOf, outboundOf_get. split.
  - intros (o & Hin & Ht). apply JsMap_get_Some_wf in Hin; [|done]. by rewrite Hin.
  - destruct (JsMap.get source _) as [o|] eqn:Hget; simpl; [|by intros ?%elem_of_nil].
    intros Ht. exists o. split; [|done]. by apply JsMap_get_Some_wf.
Qed.

(** ** The link index, continued *)

Section IndexExtras.
Variable findExact : string → option string.

(** X1.  [retrieveInbound] returns the keys of the file database whose
    stored list includes the path, each as often as it is a key, in database
    order; a path no list mentions gets the empty answer. *)
Theorem retrieveInbound_sources (self : LinkProvider) (path : string) :
  run (retrieveInbound path) self
    = Ok (filter (λ kv, path ∈ kv.2) (_fileLinkDatabase self)).*1
  ∧ (∀ source, source ∈ inboundOf self path ↔
       ∃ outbound, (source, outbound) ∈ _fileLinkDatabase self ∧ path ∈ outbound)
  ∧ inboundOf self path `sublist_of` JsMap.keys (_fileLinkDatabase self)
  ∧ ((∀ key outbound, (key, outbound) ∈ _fileLinkDatabase self → path ∉ outbound) →
       run (retrieveInbound path) self = Ok []).
Proof.
  assert (run (retrieveInbound path) self
          = Ok (filter (λ kv, path ∈ kv.2) (_fileLinkDatabase self)).*1) as Hrun.
  { unfold run, retrieveInbound. simpl. by rewrite inboundScan_filter. }
  split_and!; [done|apply elem_of_inboundOf| |].
  - unfold inboundOf. rewrite Hrun. apply fmap_sublist, sublist_filter.
  - intros Hnone. rewrite Hrun. f_equal.
    destruct (filter _ _) as [|[k o] rest] eqn:Hf; [done|].
    assert ((k, o) ∈ filter (λ kv, path ∈ kv.2) (_fileLinkDatabase self)) as Hin
      by (rewrite Hf; left).
    apply list_elem_of_filter in Hin as [Hp Hin]. by destruct (Hnone k o Hin).
Qed.

(** X2.  On an index with unique keys the two queries mirror each other:
    [source] is among the inbound links of [target] exactly when [target]
    is among the outbound links of [source]. *)
Theorem inbound_outbound_mirror (self : LinkProvider) (source target : string) :
  JsMap.wf (_fileLinkDatabase self) →
  (source ∈ inboundOf self target ↔ target ∈ outboundOf self source).
Proof. apply mirror_wf. Qed.


(** X4.  [remove] takes exactly one path out of the file database: the
    path is no key afterwards, the other keys keep their order and their
    lists, and the path disappears from every inbound answer while the other
    sources stay, in order. *)
Theorem remove_only_that_path (sourcePath : string) (sourceID : option string)
    (self : LinkProvider) :
  let self' := exec (remove sourcePath sourceID) self in
  JsMap.keys (_fileLinkDatabase self')
    = filter (λ key, key ≠ sourcePath) (JsMap.keys (_fileLinkDatabase self))
  ∧ (∀ other, other ≠ sourcePath → outboundOf self' other = outboundOf self other)
  ∧ (∀ target, inboundOf self' target
               = filter (λ source, source ≠ sourcePath) (inboundOf self target)).
Proof.
  intros self'. unfold self'. split_and!.
  - by rewrite remove_files, JsMap_keys_delete.
  - intros other Hne. by rewrite !outboundOf_get, remove_files, JsMap_get_delete_ne.
  - intros target. unfold inboundOf, run, retrieveInbound. simpl.
    rewrite !inboundScan_filter. simpl.
    change (if JsMap.has sourcePath (_fileLinkDatabase self)
            then JsMap.delete sourcePath (_fileLinkDatabase self)
            else _fileLinkDatabase self)
      with (_fileLinkDatabase (exec (remove sourcePath sourceID) self)).
    by rewrite remove_files, inbound_filter_delete.
Qed.

(** X5.  Reporting a path that is not yet known, under an ID that is not
    yet known (or under none), and removing it again with the same
    arguments gives back both databases as they were. *)
Theorem report_remove_restores (sourcePath : string) (outboundLinks : list string)
    (sourceID : option string) (self : LinkProvider) :
  JsMap.get sourcePath (_fileLinkDatabase self) = None →
  (∀ i, sourceID = Some i → JsMap.get i (_idLinkDatabase self) = None) →
  let self' := exec (remove sourcePath sourceID)
                    (exec (report findExact sourcePath outboundLinks sourceID) self) in
  _fileLinkDatabase self' = _fileLinkDatabase self
  ∧ _idLinkDatabase self' = _idLinkDatabase self.
Proof.
  intros Hfile Hid self'. unfold self'. rewrite remove_files, remove_ids, report_files,
    report_ids. split.
  - by apply JsMap_delete_set_fresh.
  - destruct (normalizeID sourceID) as [i|] eqn:Hn; [|done].
    apply JsMap_delete_set_fresh, Hid.
    destruct sourceID as [[|c j]|]; simpl in Hn; congruence.
Qed.

(** X6.  Removing twice with the same arguments leaves both databases as
    the first removal left them. *)
Theorem remove_twice_same_index (sourcePath : string) (sourceID : option string)
    (self : LinkProvider) :
  let once := exec (remove sourcePath sourceID) self in
  let twice := exec (remove sourcePath sourceID) once in
  _fileLinkDatabase twice = _fileLinkDatabase once
  ∧ _idLinkDatabase twice = _idLinkDatabase once.
Proof.
  intros once twice. unfold twice, once. rewrite !remove_files, !remove_ids. split.
  - apply JsMap_delete_delete.
  - destruct (normalizeID sourceID); [apply JsMap_delete_delete|done].
Qed.

(** X7.  A report never reorders the file database: a path that is
    already a key keeps its place, a new path goes to the end. *)
Theorem report_keeps_key_order (sourcePath : string) (outboundLinks : list string)
    (sourceID : option string) (self : LinkProvider) :
  let keys := JsMap.keys (_fileLinkDatabase self) in
  let keys' := JsMap.keys (_fileLinkDatabase
                 (exec (report findExact sourcePath outboundLinks sourceID) self)) in
  (sourcePath ∈ keys → keys' = keys) ∧ (sourcePath ∉ keys → keys' = keys ++ [sourcePath]).
Proof.
  intros keys keys'. unfold keys', keys. rewrite report_files, JsMapFacts.keys_set.
  destruct (JsMap.has sourcePath _) eqn:Hhas.
  - apply JsMap_has_true in Hhas. by split.
  - split; [|done]. intros Hin%JsMap_has_true. congruence.
Qed.

(** X8.  Two paths reported under one ID share a single ID entry:
    removing the first of them deletes that entry although the second path,
    which wrote it last, stays in the file database. *)
Theorem remove_drops_shared_id (p1 p2 : string) (links1 links2 : list string)
    (sourceID : string) (self : LinkProvider) :
  p1 ≠ p2 → sourceID ≠ "" →
  let self' := exec (remove p1 (Some sourceID))
                 (exec (report findExact p2 links2 (Some sourceID))
                    (exec (report findExact p1 links1 (Some sourceID)) self)) in
  JsMap.get sourceID (_idLinkDatabase self') = None
  ∧ JsMap.get p1 (_fileLinkDatabase self') = None
  ∧ JsMap.get p2 (_fileLinkDatabase self') = Some (omap findExact links2).
Proof.
  intros Hp Hid self'. unfold self'. rewrite remove_files, remove_ids.
  rewrite normalizeID_nonempty by done. split_and!.
  - apply JsMapFacts.get_delete.
  - apply JsMapFacts.get_delete.
  - rewrite JsMap_get_delete_ne by done. rewrite report_files. apply JsMapFacts.get_set_eq.
Qed.

(** X9.  Whatever reports and removals a fresh instance has seen: the keys
    of either database are unique, every stored identifier is an output of
    the resolver, no key of the ID database is empty, and one message was
    broadcast on [links] per call. *)
Theorem history_invariants (ms : list mutation) :
  let self := history findExact ms in
  provider_wf self
  ∧ all_resolved findExact (_fileLinkDatabase self)
  ∧ all_resolved findExact (_idLinkDatabase self)
  ∧ ("" ∉ JsMap.keys (_idLinkDatabase self))
  ∧ ipcBroadcasts self = replicate (length ms) "links".
Proof.
  induction ms as [|m ms IH] using rev_ind.
  - split_and!.
    + apply new_provider_wf.
    + by intros k o t ?%elem_of_nil.
    + by intros k o t ?%elem_of_nil.
    + apply not_elem_of_nil.
    + done.
  - rewrite history_snoc. cbv zeta in *. destruct IH as (Hwf & Hf & Hi & He & Hb).
    set (self := history findExact ms) in *. destruct m as [p l sid|p sid]; cbn [mutate].
    + split_and!.
      * by apply report_wf.
      * rewrite report_files. intros k o t [Hin|[_ ->]]%JsMap_elem_of_set Ht;
          [by eapply Hf|by eapply omap_resolved].
      * rewrite report_ids. destruct (normalizeID sid); [|done].
        intros k o t [Hin|[_ ->]]%JsMap_elem_of_set Ht;
          [by eapply Hi|by eapply omap_resolved].
      * rewrite report_ids. destruct (normalizeID sid) as [i|] eqn:Hn; [|done].
        rewrite JsMapFacts.keys_set. destruct (JsMap.has i _); [done|].
        rewrite elem_of_app, list_elem_of_singleton. intros [?|<-]; [done|].
        by destruct sid as [[|??]|].
      * unfold exec, report. simpl. by rewrite Hb, length_app, replicate_add.
    + split_and!.
      * by apply remove_wf.
      * rewrite remove_files. intros k o t [_ Hin]%JsMap_elem_of_delete Ht. by eapply Hf.
      * rewrite remove_ids. destruct (normalizeID sid); [|done].
        intros k o t [_ Hin]%JsMap_elem_of_delete Ht. by eapply Hi.
      * rewrite remove_ids. destruct (normalizeID sid); [|done].
        rewrite JsMap_keys_delete. by intros [_ ?]%list_elem_of_filter.
      * unfold exec, remove. simpl. by rewrite Hb, length_app, replicate_add.
Qed.
End IndexExtras.

(** ** The labeler on arbitrary graphs *)

Section Sweep.
Variable es : list GraphEdge.
Variable ns0 : list GraphVertex.

Implicit Types (ns : list GraphVertex) (v w : GraphVertex) (c : string) (st : labeling).

Lemma relabelled_refl c ns : Forall2 (relabelled es ns0 c) ns ns.
Proof. apply Forall_Forall2_diag, Forall_forall. intros v _. by left. Qed.

Lemma relabelled_trans c ns1 ns2 ns3 :
  c ≠ NONE_COMPONENT →
  Forall2 (relabelled es ns0 c) ns1 ns2 → Forall2 (relabelled es ns0 c) ns2 ns3 →
  Forall2 (relabelled es ns0 c) ns1 ns3.
Proof.
  intros Hc H12. revert ns3. induction H12 as [|v1 v2 ns1 ns2 Hv _ IH]; intros ns3 H23.
  - by inversion H23.
  - inversion H23 as [|? v3 ? ns3' Hv' H23']; subst. constructor; [|by apply IH].
    destruct Hv as [->|(Hn & HP & ->)]; [done|].
    destruct Hv' as [->|(Hn' & _)]; [right; done|]. by destruct Hc.
Qed.

Lemma relabelled_ids c ns ns' : Forall2 (relabelled es ns0 c) ns ns' → ids ns' = ids ns.
Proof.
  unfold ids. induction 1 as [|v v' ns ns' Hv _ IH]; [done|].
  rewrite !fmap_cons, IH. f_equal. by destruct Hv as [->|(_ & _ & ->)].
Qed.

Lemma relabelled_alter c ns ref v :
  ns !! ref = Some v → component v = NONE_COMPONENT → neighbours_present es ns0 v →
  Forall2 (relabelled es ns0 c) ns (alter (set_component c) ref ns).
Proof.
  intros Hv Hn HP. apply Forall2_same_length_lookup. split; [by rewrite length_alter|].
  intros j w w' Hw Hw'. destruct (decide (ref = j)) as [<-|Hne].
  - rewrite list_lookup_alter_eq, Hv in Hw'. simpl in Hw'. right. naive_solver.
  - rewrite list_lookup_alter_ne in Hw' by done. left. congruence.
Qed.

Lemma relabelled_lookup_labelled c ns ns' j v :
  Forall2 (relabelled es ns0 c) ns ns' → ns !! j = Some v →
  component v ≠ NONE_COMPONENT → ns' !! j = Some v.
Proof.
  intros H Hv Hn. destruct (Forall2_lookup_l _ _ _ _ _ H Hv) as (v' & Hv' & Hrel).
  by destruct Hrel as [->|(? & _)].
Qed.

(** The loop over [allTargets]: it completes only if every reference was
    found. *)
Lemma loop_relabels fuel c :
  (∀ source st st', ids st.1 = ids ns0 →
     visit fuel es source (Some c) st = Ok st' →
     st'.2 = st.2 ∧ Forall2 (relabelled es ns0 c) st.1 st'.1) →
  c ≠ NONE_COMPONENT →
  ∀ (ts : list (option nat)) st st', ids st.1 = ids ns0 →
    for_of ts (λ target, visit fuel es target (Some c)) st = Ok st' →
    st'.2 = st.2 ∧ Forall2 (relabelled es ns0 c) st.1 st'.1 ∧ Forall is_Some ts.
Proof.
  intros IH Hc. induction ts as [|t ts IHts]; intros st st' Hids Hrun.
  - injection Hrun as <-. split_and!; [done|apply relabelled_refl|done].
  - cbn [for_of] in Hrun.
    destruct (visit fuel es t (Some c) st) as [st1| |] eqn:Hvisit; [|done..].
    simpl in Hrun. destruct (IH t st st1 Hids Hvisit) as [Hc1 Hr1].
    destruct (IHts st1 st') as (Hc2 & Hr2 & Hall); [|done|].
    { by rewrite (relabelled_ids _ _ _ Hr1). }
    split_and!; [congruence|by eapply relabelled_trans|].
    constructor; [|done]. destruct t; [done|]. by destruct fuel.
Qed.

Lemma body_relabels fuel c ref v ns comps st' :
  (∀ source st st', ids st.1 = ids ns0 →
     visit fuel es source (Some c) st = Ok st' →
     st'.2 = st.2 ∧ Forall2 (relabelled es ns0 c) st.1 st'.1) →
  c ≠ NONE_COMPONENT → ids ns = ids ns0 →
  ns !! ref = Some v → component v = NONE_COMPONENT →
  for_of ((λ link, Graph.find link (alter (set_component c) ref ns))
            <$> oppositeEnds es (id v))
         (λ target, visit fuel es target (Some c))
         (alter (set_component c) ref ns, comps) = Ok st' →
  st'.2 = comps ∧ Forall2 (relabelled es ns0 c) ns st'.1
  ∧ st'.1 !! ref = Some (set_component c v).
Proof.
  intros IH Hc Hids Hv Hn Hrun.
  assert (ids (alter (set_component c) ref ns) = ids ns0) as Hids1.
  { rewrite <- Hids. by apply ids_alter. }
  destruct (loop_relabels fuel c IH Hc _ (alter (set_component c) ref ns, comps) _
              Hids1 Hrun) as (Hcomps & Hrel & Hall).
  assert (neighbours_present es ns0 v) as HP.
  { intros y Hy. rewrite Forall_fmap, Forall_forall in Hall.
    specialize (Hall y Hy). simpl in Hall. rewrite <- Hids1.
    destruct (Graph.find y _) as [j|] eqn:Hf; [|by destruct Hall].
    destruct (find_Some _ _ _ Hf) as (w & Hw & <-). by eapply lookup_ids. }
  split_and!; [done| |].
  - eapply relabelled_trans; [done|by apply (relabelled_alter c ns ref v)|done].
  - eapply relabelled_lookup_labelled; [exact Hrel| |done].
    simpl. by rewrite list_lookup_alter_eq, Hv.
Qed.

Lemma visit_relabels c fuel :
  ∀ source st st', ids st.1 = ids ns0 →
    visit fuel es source (Some c) st = Ok st' →
    st'.2 = st.2 ∧ Forall2 (relabelled es ns0 c) st.1 st'.1.
Proof.
  induction fuel as [|fuel IH]; intros source [ns comps] st' Hids Hrun; [done|].
  rewrite visit_S in Hrun. simpl in *. destruct source as [ref|]; [|done].
  destruct (ns !! ref) as [v|] eqn:Hv; [|done].
  destruct (decide _) as [Hg|Hg].
  - injection Hrun as <-. split; [done|apply relabelled_refl].
  - apply visit_guard_false in Hg as (Hn & _ & Hc). specialize (Hc 0). simpl in Hc.
    by destruct (body_relabels fuel c ref v ns comps st' IH Hc Hids Hv Hn Hrun) as (? & ? & _).
Qed.

(** A top-level visit either meets a labelled vertex and does nothing, or
    opens the next component at that vertex. *)
Lemma top_visit_relabels fuel i st st' :
  ids st.1 = ids ns0 → visit fuel es (Some i) None st = Ok st' →
  (st' = st ∧ ∃ v, st.1 !! i = Some v ∧ component v ≠ NONE_COMPONENT)
  ∨ (∃ v, st.1 !! i = Some v ∧ component v = NONE_COMPONENT
          ∧ st'.2 = st.2 ++ [componentName (length st.2 + 1)]
          ∧ Forall2 (relabelled es ns0 (componentName (length st.2 + 1))) st.1 st'.1
          ∧ st'.1 !! i = Some (set_component (componentName (length st.2 + 1)) v)).
Proof.
  intros Hids Hrun. destruct fuel as [|fuel]; [done|]. rewrite visit_S in Hrun.
  destruct st as [ns comps]. simpl in *. destruct (ns !! i) as [v|] eqn:Hv; [|done].
  destruct (decide _) as [Hg|Hg].
  - injection Hrun as <-. left. split; [done|]. exists v. split; [done|]. by destruct Hg.
  - apply visit_guard_false in Hg as (Hn & _ & _). right. exists v.
    destruct (body_relabels fuel _ i v ns _ st' (visit_relabels _ fuel)
                (componentName_not_NONE _) Hids Hv Hn Hrun) as (? & ? & ?).
    by split_and!.
Qed.

Lemma labelled_from_ids comps ns :
  Forall2 (labelled_from es ns0 comps) ns0 ns → ids ns = ids ns0.
Proof.
  unfold ids. induction 1 as [|v v' l l' Hv _ IH]; [done|].
  rewrite !fmap_cons, IH. f_equal. by destruct Hv as [->|(_ & _ & ? & _ & ->)].
Qed.

Lemma sweep_name_not_NONE comps c :
  comps = componentName <$> seq 1 (length comps) → c ∈ comps → c ≠ NONE_COMPONENT.
Proof.
  intros Hnames Hc. rewrite Hnames in Hc.
  apply list_elem_of_fmap in Hc as (k & -> & _). apply componentName_not_NONE.
Qed.

Lemma sweep_name_fresh comps :
  comps = componentName <$> seq 1 (length comps) →
  componentName (length comps + 1) ∉ comps.
Proof.
  intros Hnames Hin.
  assert (componentName (length comps + 1) ∈ componentName <$> seq 1 (length comps)) as H
    by (by rewrite <- Hnames).
  apply list_elem_of_fmap in H as (k & Heq%componentName_inj & Hk%elem_of_seq). lia.
Qed.

Lemma sweep_inv_init : sweep_inv es ns0 0 (ns0, []).
Proof.
  split_and!; simpl.
  - done.
  - apply Forall_Forall2_diag, Forall_forall. intros v _. by left.
  - intros j v' Hj. lia.
  - intros m Hm. lia.
  - intros m n j v Hmn Hn. lia.
Qed.

Lemma sweep_step fuel i st st' :
  sweep_inv es ns0 i st → visit fuel es (Some i) None st = Ok st' →
  sweep_inv es ns0 (S i) st'.
Proof.
  intros (Hnames & Hfrom & Hdone & Hused & Hord) Hrun.
  pose proof (labelled_from_ids _ _ Hfrom) as Hids.
  destruct (top_visit_relabels fuel i st st' Hids Hrun)
    as [[-> (v & Hv & Hn)]|(v & Hv & Hn & Hcomps & Hrel & Hi)].
  { split_and!; [done|done| | |done].
    - intros j v' Hj Hv'. destruct (decide (j = i)) as [->|Hne]; [congruence|].
      apply (Hdone j); [lia|done].
    - intros m Hm. destruct (Hused m Hm) as (j & v0 & Hj & H). exists j, v0.
      split; [lia|done]. }
  set (c := componentName (length st.2 + 1)) in *.
  assert (c ∉ st.2) as Hfresh by by apply sweep_name_fresh.
  assert (∀ c', c' ∈ st.2 → c' ≠ NONE_COMPONENT) as Hreal
    by (intros c'; by apply sweep_name_not_NONE).
  assert (∀ j v1, st.1 !! j = Some v1 → component v1 ≠ NONE_COMPONENT →
                  st'.1 !! j = Some v1) as Hkeep.
  { intros j v1 Hv1 Hne. by eapply relabelled_lookup_labelled. }
  assert (∀ j v0 m, (1 ≤ m ≤ length st.2)%nat →
            st.1 !! j = Some (set_component (componentName m) v0) →
            st'.1 !! j = Some (set_component (componentName m) v0)) as Hkeep'.
  { intros j v0 m Hm Hj. apply Hkeep; [done|]. apply componentName_not_NONE. }
  assert (ns0 !! i = Some v) as Hv0.
  { destruct (Forall2_lookup_r _ _ _ _ _ Hfrom Hv) as (v0 & Hv0 & Hrel0).
    destruct Hrel0 as [->|(_ & _ & c' & Hc' & ->)]; [done|].
    simpl in Hn. by destruct (Hreal c' Hc'). }
  split_and!.
  - rewrite Hcomps, length_app. simpl. rewrite seq_app, fmap_app, <- Hnames. simpl.
    by rewrite (Nat.add_comm 1).
  - rewrite Hcomps. eapply Forall2_trans; [|exact Hfrom|exact Hrel].
    intros v0 v1 v2 H01 H12.
    destruct H01 as [->|(Hn0 & HP & c' & Hc' & ->)].
    + destruct H12 as [->|(Hn1 & HP & ->)]; [by left|]. right. split_and!; [done..|].
      exists c. split; [|done]. apply elem_of_app. right. left.
    + destruct H12 as [->|(Hn1 & _)]; [|by destruct (Hreal c' Hc')].
      right. split_and!; [done..|]. exists c'. split; [|done]. apply elem_of_app. by left.
  - intros j v2 Hj Hv2. destruct (decide (j = i)) as [->|Hne].
    + rewrite Hi in Hv2. injection Hv2 as <-. apply componentName_not_NONE.
    + destruct (Forall2_lookup_r _ _ _ _ _ Hrel Hv2) as (v1 & Hv1 & H12).
      assert (component v1 ≠ NONE_COMPONENT) as Hne1 by (apply (Hdone j); [lia|done]).
      by destruct H12 as [->|(? & _)].
  - intros m Hm. rewrite Hcomps, length_app in Hm. simpl in Hm.
    destruct (decide (m = length st.2 + 1)) as [->|Hne].
    + exists i, v. split_and!; [lia|done|done|done].
    + destruct (Hused m ltac:(lia)) as (j & v0 & Hj & Hj0 & Hn0 & Hj1).
      exists j, v0. split_and!; [lia|done|done|]. apply Hkeep'; [lia|done].
  - intros m n j v0 Hmn Hnk Hj0 Hn0 Hj2. rewrite Hcomps, length_app in Hnk. simpl in Hnk.
    destruct (Forall2_lookup_r _ _ _ _ _ Hrel Hj2) as (v1 & Hj1 & H12).
    destruct (decide (n = length st.2 + 1)) as [->|Hne].
    + assert (¬ (j < i)%nat) as Hji.
      { intros Hlt. pose proof (Hdone j v1 Hlt Hj1) as Hne1.
        destruct H12 as [<-|(? & _)]; [|done].
        destruct (Forall2_lookup_lr _ _ _ _ _ _ Hfrom Hj0 Hj1)
          as [Heq|(_ & _ & c' & Hc' & Heq)].
        - rewrite <- Heq in Hn0. simpl in Hn0. by destruct (componentName_not_NONE _ Hn0).
        - apply (f_equal component) in Heq. simpl in Heq. subst c'. done. }
      destruct (Hused m ltac:(lia)) as (j' & v0' & Hj' & Hj0' & Hn0' & Hj1').
      exists j', v0'. split_and!; [lia|done|done|]. apply Hkeep'; [lia|done].
    + assert (st.1 !! j = Some (set_component (componentName n) v0)) as Hj1'.
      { destruct H12 as [<-|(_ & _ & Heq)]; [done|].
        apply (f_equal component) in Heq. simpl in Heq.
        apply componentName_inj in Heq. lia. }
      destruct (Hord m n j v0 Hmn ltac:(lia) Hj0 Hn0 Hj1') as (j' & v0' & ? & ? & ? & ?).
      exists j', v0'. split_and!; [done..|]. apply Hkeep'; [lia|done].
Qed.

Lemma sweep_loop fuel cnt :
  ∀ i st st', sweep_inv es ns0 i st →
    for_of (seq i cnt) (λ idx st, visit fuel es (Some idx) None st) st = Ok st' →
    sweep_inv es ns0 (i + cnt) st'.
Proof.
  induction cnt as [|cnt IH]; intros i st st' Hinv Hrun.
  - injection Hrun as <-. by rewrite Nat.add_0_r.
  - cbn [seq for_of] in Hrun.
    destruct (visit fuel es (Some i) None st) as [st1| |] eqn:Hvisit; [|done..].
    simpl in Hrun. rewrite <- Nat.add_succ_comm.
    apply (IH (S i) st1); [|done]. by eapply sweep_step.
Qed.
End Sweep.

Lemma identifyComponents_sweep (graph : LinkGraph) (st : labeling) :
  identifyComponents graph = Ok st →
  sweep_inv (links graph) (nodes graph) (length (nodes graph)) st.
Proof.
  intros Hrun. apply (sweep_loop _ _ _ _ 0 _ _ (sweep_inv_init _ _) Hrun).
Qed.

Lemma for_of_throws {A S} (body : A → S → result S) (e0 : exn) :
  (∀ x s e, body x s = Throw e → e = e0) →
  ∀ xs s e, for_of xs body s = Throw e → e = e0.
Proof.
  intros Hbody. induction xs as [|x xs IH]; intros s e; [done|]. cbn [for_of].
  destruct (body x s) as [s1|e1|] eqn:Hx; simpl; [apply IH| |done].
  intros [= <-]. by eapply Hbody.
Qed.

(** The only exception [visit] raises is the one for an [undefined]
    vertex. *)
Lemma visit_throws links fuel :
  ∀ source component st e,
    visit fuel links source component st = Throw e → e = TypeError.
Proof.
  induction fuel as [|fuel IH]; intros source component st e; [done|].
  rewrite visit_S. destruct source as [ref|]; [|by intros [= <-]].
  destruct (st.1 !! ref) as [v|]; [|by intros [= <-]].
  destruct (decide _); [done|]. cbv zeta. apply for_of_throws. intros x s. apply IH.
Qed.

Lemma componentNames_NoDup k : NoDup (componentName <$> seq 1 k).
Proof.
  apply NoDup_fmap_2_strong; [|apply NoDup_seq].
  intros n m _ _. apply componentName_inj.
Qed.

Lemma sweep_final_vertex es ns0 n st j v0 v' :
  sweep_inv es ns0 n st → ns0 !! j = Some v0 → st.1 !! j = Some v' →
  erase [v'] = erase [v0]
  ∧ (component v0 ≠ NONE_COMPONENT → v' = v0)
  ∧ (component v0 = NONE_COMPONENT → (j < n)%nat →
       neighbours_present es ns0 v0 ∧ ∃ c, c ∈ st.2 ∧ v' = set_component c v0).
Proof.
  intros (Hnames & Hfrom & Hdone & _) Hj0 Hj.
  destruct (Forall2_lookup_lr _ _ _ _ _ _ Hfrom Hj0 Hj) as [->|(Hn & HP & c & Hc & ->)].
  - split_and!; [done|done|]. intros Hn Hlt. by destruct (Hdone j v0 Hlt Hj).
  - split_and!; [done|by intros ?|]. intros _ _. split; [done|]. by exists c.
Qed.

Lemma labelled_from_erase es ns0 comps ns :
  Forall2 (labelled_from es ns0 comps) ns0 ns → erase ns = erase ns0.
Proof.
  unfold erase. induction 1 as [|v v' l l' Hv _ IH]; [done|].
  rewrite !fmap_cons, IH. f_equal. by destruct Hv as [->|(_ & _ & ? & _ & ->)].
Qed.

Lemma length_omap_cons {A B} (F : A → option B) (x : A) (l : list A) :
  length (omap F (x :: l))
  = (match F x with Some _ => 1 | None => 0 end + length (omap F l))%nat.
Proof. simpl. by destruct (F x). Qed.

Lemma count_relabelled (ns' : list GraphVertex)
    (g : nat → GraphVertex → nat * GraphVertex) (ns : list GraphVertex) :
  (∀ i v, (g i v).2 = v) →
  (length (omap (λ iv : nat * GraphVertex,
             match ns' !! iv.1 with
             | Some v' => if decide (component iv.2 = NONE_COMPONENT)
                          then Some (component v') else None
             | None => None
             end) (imap g ns))
   ≤ unassigned ns)%nat.
Proof.
  unfold unassigned. revert g. induction ns as [|v ns IH]; intros g Hg; [done|].
  rewrite imap_cons, length_omap_cons, filter_cons, Hg.
  specialize (IH (g ∘ S) (λ i v, Hg (S i) v)).
  destruct (ns' !! (g 0 v).1) as [v'|]; destruct (decide (component v = NONE_COMPONENT));
    simpl length; lia.
Qed.

Lemma identifyComponents_throws (graph : LinkGraph) (e : exn) :
  identifyComponents graph = Throw e → e = TypeError.
Proof.
  unfold identifyComponents. apply for_of_throws. intros idx st e'. apply visit_throws.
Qed.

Section LabelerOnAnyGraph.
Variable graph : LinkGraph.

(** X10.  On any graph whatsoever [identifyComponents] comes back: the
    recursion ends, and the only exception it can raise is the one for a
    vertex that is [undefined].  When it returns, no vertex has changed its
    identifier, display label or isolate flag, a vertex that carried a
    label before carries the same one, and every vertex that carried the
    sentinel now carries one of the returned labels. *)
Theorem identifyComponents_on_any_graph :
  identifyComponents graph ≠ OutOfFuel
  ∧ (∀ e, identifyComponents graph = Throw e → e = TypeError)
  ∧ (∀ st, identifyComponents graph = Ok st →
       erase st.1 = erase (nodes graph)
       ∧ (∀ i v, nodes graph !! i = Some v → component v ≠ NONE_COMPONENT →
            st.1 !! i = Some v)
       ∧ (∀ i v, nodes graph !! i = Some v → component v = NONE_COMPONENT →
            ∃ c, c ∈ st.2 ∧ c ≠ NONE_COMPONENT ∧ st.1 !! i = Some (set_component c v))).
Proof.
  split_and!.
  - apply identifyComponents_fuel.
  - apply identifyComponents_throws.
  - intros st Hrun. pose proof (identifyComponents_sweep graph st Hrun) as Hinv.
    assert (length st.1 = length (nodes graph)) as Hlen.
    { destruct Hinv as (_ & Hfrom & _). symmetry. by eapply Forall2_length. }
    split_and!.
    + destruct Hinv as (_ & Hfrom & _). by eapply labelled_from_erase.
    + intros i v Hv Hn.
      destruct (lookup_lt_is_Some_2 st.1 i) as [v' Hv'].
      { rewrite Hlen. by eapply lookup_lt_Some. }
      destruct (sweep_final_vertex _ _ _ _ _ _ _ Hinv Hv Hv') as (_ & Hsame & _).
      by rewrite Hv', (Hsame Hn).
    + intros i v Hv Hn.
      destruct (lookup_lt_is_Some_2 st.1 i) as [v' Hv'].
      { rewrite Hlen. by eapply lookup_lt_Some. }
      destruct (sweep_final_vertex _ _ _ _ _ _ _ Hinv Hv Hv') as (_ & _ & Hnew).
      destruct (Hnew Hn) as (_ & c & Hc & ->); [by eapply lookup_lt_Some|].
      exists c. split_and!; [done| |done].
      destruct Hinv as (Hnames & _). by eapply sweep_name_not_NONE.
Qed.

(** X11.  The list [identifyComponents] returns is Component 1, ...,
    Component k without gaps or repeats; each of these labels was given to
    at least one vertex that carried the sentinel, so there are at most as
    many as there were such vertices. *)
Theorem identifyComponents_returned_labels (st : labeling) :
  identifyComponents graph = Ok st →
  st.2 = componentName <$> seq 1 (length st.2)
  ∧ (∀ c, c ∈ st.2 →
       ∃ i v, nodes graph !! i = Some v ∧ component v = NONE_COMPONENT
              ∧ st.1 !! i = Some (set_component c v))
  ∧ (length st.2 ≤ unassigned (nodes graph))%nat.
Proof.
  intros Hrun. pose proof (identifyComponents_sweep graph st Hrun) as Hinv.
  destruct Hinv as (Hnames & Hfrom & Hdone & Hused & Hord).
  assert (∀ c, c ∈ st.2 →
            ∃ i v, nodes graph !! i = Some v ∧ component v = NONE_COMPONENT
                   ∧ st.1 !! i = Some (set_component c v)) as Hcarried.
  { intros c Hc. rewrite Hnames in Hc.
    apply list_elem_of_fmap in Hc as (m & -> & Hm%elem_of_seq).
    destruct (Hused m ltac:(lia)) as (j & v & _ & ? & ? & ?). by exists j, v. }
  split_and!; [done|done|].
  (* each returned label is the new label of a distinct sentinel vertex *)
  assert (st.2 ⊆+ omap (λ iv, match st.1 !! iv.1 with
                              | Some v' => if decide (component iv.2 = NONE_COMPONENT)
                                           then Some (component v') else None
                              | None => None
                              end) (imap pair (nodes graph))) as Hsub.
  { apply NoDup_submseteq; [rewrite Hnames; apply componentNames_NoDup|].
    intros c Hc. destruct (Hcarried c Hc) as (i & v & Hv & Hn & Hv').
    apply list_elem_of_omap. exists (i, v). split.
    - apply list_elem_of_lookup. exists i. by rewrite list_lookup_imap, Hv.
    - simpl. rewrite Hv', decide_True by done. done. }
  apply submseteq_length in Hsub. etrans; [exact Hsub|].
  by apply (count_relabelled st.1 pair).
Qed.

(** X12.  [identifyComponents] returns only if every arc at a vertex that
    carried the sentinel ends at a vertex: on a graph with such a vertex
    and an arc from or to it whose other end has no vertex, it raises
    [TypeError]. *)
Theorem identifyComponents_dangling_arc (v : GraphVertex) (e : GraphEdge) :
  v ∈ nodes graph → component v = NONE_COMPONENT → e ∈ links graph →
  (source e = id v ∧ target e ∉ ids (nodes graph))
  ∨ (target e = id v ∧ source e ∉ ids (nodes graph)) →
  identifyComponents graph = Throw TypeError.
Proof.
  intros [i Hi]%list_elem_of_lookup Hn He Hdangling.
  pose proof (identifyComponents_fuel graph) as Hfuel.
  pose proof (identifyComponents_throws graph) as Hthrow.
  destruct (identifyComponents graph) as [st|e'|] eqn:Hrun; [|by rewrite (Hthrow e')|done].
  exfalso. pose proof (identifyComponents_sweep graph st Hrun) as Hinv.
  assert (length st.1 = length (nodes graph)) as Hlen.
  { destruct Hinv as (_ & Hfrom & _). symmetry. by eapply Forall2_length. }
  destruct (lookup_lt_is_Some_2 st.1 i) as [v' Hv'].
  { rewrite Hlen. by eapply lookup_lt_Some. }
  destruct (sweep_final_vertex _ _ _ _ _ _ _ Hinv Hi Hv') as (_ & _ & Hnew).
  destruct (Hnew Hn) as (HP & _); [by eapply lookup_lt_Some|].
  destruct Hdangling as [[Hs Ht]|[Ht Hs]].
  - apply Ht, HP, elem_of_oppositeEnds. exists e. split; [done|]. by left.
  - apply Hs, HP, elem_of_oppositeEnds. exists e. split; [done|]. by right.
Qed.
End LabelerOnAnyGraph.

(** ** The graph builder, continued *)

Section BuildGraphExtras.
Variable basename : string → string.

Lemma collect_nodes_fresh (db : JsMap.t (list string)) (g : LinkGraph) :
  NoDup (JsMap.keys db) → (∀ key, key ∈ JsMap.keys db → key ∉ ids (nodes g)) →
  nodes (collect basename db g)
  = nodes g ++ ((λ file, {| id := file; label := basename file;
                            component := NONE_COMPONENT; isolate := true |})
                  <$> JsMap.keys db).
Proof.
  unfold JsMap.keys. revert g. induction db as [|[file outbound] db IH]; intros g Hnd Hnew.
  - simpl. by rewrite app_nil_r.
  - rewrite fmap_cons in Hnd, Hnew. cbn [fst] in Hnd, Hnew.
    apply NoDup_cons in Hnd as [Hfile Hnd]. cbn [collect].
    assert (Graph.find file (nodes g) = None) as ->.
    { apply find_None, Hnew. left. }
    rewrite IH; [|done|].
    + simpl. by rewrite <- app_assoc.
    + intros key Hkey. simpl. unfold ids. rewrite fmap_app, elem_of_app. simpl.
      rewrite list_elem_of_singleton. intros [Hin| ->]; [|done].
      by apply (Hnew key); [right|].
Qed.

Lemma length_arcsOf (db : JsMap.t (list string)) :
  length (arcsOf db) = sum_list ((λ kv, length kv.2) <$> db).
Proof.
  unfold arcsOf. induction db as [|[k o] db IH]; [done|].
  rewrite bind_cons, length_app, length_fmap, fmap_cons. simpl. by rewrite IH.
Qed.

(** What the three phases of [buildGraph] hand to each other. *)
Lemma buildGraph_sweep (self : LinkProvider) (g : LinkGraph) :
  run (buildGraph basename) self = Ok g →
  ∃ ns2,
    ids ns2 = ids (nodes (collect basename (_fileLinkDatabase self) emptyGraph))
    ∧ Forall (λ v, component v = NONE_COMPONENT) ns2
    ∧ links g = arcsOf (_fileLinkDatabase self)
    ∧ sweep_inv (links g) ns2 (length ns2) (nodes g, components g).
Proof.
  unfold run, buildGraph. cbn [fst]. set (db := _fileLinkDatabase self).
  set (g0 := collect basename db emptyGraph).
  assert (NoDup (ids (nodes g0))) as Hnd0 by (apply collect_NoDup, NoDup_nil_2).
  assert (Forall (λ v, component v = NONE_COMPONENT) (nodes g0)) as Hfresh
    by by apply collect_Forall.
  pose proof (clearIsolate_loop (JsSet.of_list (source <$> links g0)) (nodes g0) Hnd0) as H1.
  destruct (for_of _ clearIsolate (nodes g0)) as [ns1| |]; simpl; [|done..].
  destruct H1 as [_ Hns1].
  assert (ids ns1 = ids (nodes g0)) as Hids1.
  { rewrite Hns1. apply ids_fmap. intros v. by destruct (decide _). }
  pose proof (clearIsolate_loop (JsSet.of_list (target <$> links g0)) ns1) as H2.
  rewrite Hids1 in H2. specialize (H2 Hnd0).
  destruct (for_of _ clearIsolate ns1) as [ns2| |]; simpl; [|done..].
  destruct H2 as [_ Hns2].
  destruct (identifyComponents _) as [st| |] eqn:Hrun; simpl; [|done..].
  intros [= <-]. exists ns2. simpl. split_and!.
  - rewrite Hns2, <- Hids1. apply ids_fmap. intros v. by destruct (decide _).
  - rewrite Hns2, Hns1, <- list_fmap_compose. apply Forall_fmap, Forall_forall.
    intros v Hv. rewrite Forall_forall in Hfresh. simpl.
    repeat destruct (decide _); simpl; by apply Hfresh.
  - apply collect_links.
  - apply (identifyComponents_sweep _ _ Hrun).
Qed.

(** X13.  The graph [buildGraph] returns lists the stored links as arcs
    of weight 1, in database order, one per stored link, duplicates and
    self-links included; its vertices carry the basename of their
    identifier as display label, and on an index with unique keys they are
    the keys of the file database, in database order. *)
Theorem buildGraph_vertices_and_arcs (self : LinkProvider) (g : LinkGraph) :
  run (buildGraph basename) self = Ok g →
  links g = _fileLinkDatabase self
              ≫= (λ kv, (λ target, {| source := kv.1; target := target; weight := 1 |})
                          <$> kv.2)
  ∧ length (links g) = sum_list ((λ kv, length kv.2) <$> _fileLinkDatabase self)
  ∧ (∀ v, v ∈ nodes g → label v = basename (id v))
  ∧ (JsMap.wf (_fileLinkDatabase self) →
       id <$> nodes g = JsMap.keys (_fileLinkDatabase self)).
Proof.
  intros Hrun. pose proof (buildGraph_spec basename self) as Hspec. rewrite Hrun in Hspec.
  destruct (buildGraph_sweep self g Hrun) as (ns2 & Hids & _ & Hlinks & _ & Hfrom & _).
  split_and!.
  - done.
  - rewrite Hlinks. apply length_arcsOf.
  - apply (built_label _ _ _ Hspec).
  - intros Hwf. apply labelled_from_ids in Hfrom. simpl in Hfrom.
    change (id <$> nodes g) with (ids (nodes g)). rewrite Hfrom, Hids.
    rewrite collect_nodes_fresh; [|done|by intros key _ ?%elem_of_nil].
    simpl. unfold ids. rewrite <- list_fmap_compose. apply list_fmap_id.
Qed.

(** X14.  On an index with unique keys the returned graph agrees with
    the link queries: there is an arc from [source] to [target] exactly
    when [target] is an outbound link of [source], and a vertex is an
    isolate exactly when its identifier has neither outbound nor inbound
    links. *)
Theorem buildGraph_agrees_with_queries (self : LinkProvider) (g : LinkGraph) :
  JsMap.wf (_fileLinkDatabase self) →
  run (buildGraph basename) self = Ok g →
  (∀ source target,
     {| source := source; target := target; weight := 1 |} ∈ links g
     ↔ target ∈ outboundOf self source)
  ∧ (∀ e, e ∈ links g → weight e = 1%Z)
  ∧ (∀ v, v ∈ nodes g →
       (isolate v = true ↔ outboundOf self (id v) = [] ∧ inboundOf self (id v) = [])).
Proof.
  intros Hwf Hrun. pose proof (buildGraph_spec basename self) as Hspec. rewrite Hrun in Hspec.
  assert (∀ s t, mkEdge s t 1 ∈ links g ↔ t ∈ outboundOf self s) as Harc.
  { intros s t. rewrite (built_links _ _ _ Hspec), elem_of_arcsOf, outboundOf_get. split.
    - intros (file & outbound & target & Hin & Ht & [= -> ->]).
      apply JsMap_get_Some_wf in Hin; [|done]. by rewrite Hin.
    - destruct (JsMap.get s _) as [o|] eqn:Hget; simpl; [|by intros ?%elem_of_nil].
      intros Ht. exists s, o, t. split_and!; [|done..]. by apply JsMap_get_Some_wf. }
  assert (∀ e, e ∈ links g → e = mkEdge (source e) (target e) 1) as Hshape.
  { intros e. rewrite (built_links _ _ _ Hspec), elem_of_arcsOf.
    by intros (file & outbound & target & _ & _ & ->). }
  split_and!; [done| |].
  - intros e He. by rewrite (Hshape e He).
  - intros v Hv. pose proof (built_isolate _ _ _ Hspec v Hv) as Hiso.
    assert (endpoint (links g) (id v)
            ↔ ¬ (outboundOf self (id v) = [] ∧ inboundOf self (id v) = [])) as Hend.
    { split.
      - intros (e & He & Hx) [Hout Hin]. pose proof (Hshape e He) as Heq.
        rewrite Heq in He. apply Harc in He. destruct Hx as [Hx|Hx]; rewrite Hx in He.
        + rewrite Hout in He. by apply elem_of_nil in He.
        + apply (mirror_wf self (source e) (id v) Hwf) in He.
          rewrite Hin in He. by apply elem_of_nil in He.
      - intros Hne. destruct (outboundOf self (id v)) as [|t ts] eqn:Hout.
        + destruct (inboundOf self (id v)) as [|s ss] eqn:Hin; [by destruct Hne|].
          exists (mkEdge s (id v) 1). split; [|by right]. apply Harc.
          apply (mirror_wf self s (id v) Hwf). rewrite Hin. left.
        + exists (mkEdge (id v) t 1). split; [|by left]. apply Harc. rewrite Hout. left. }
    rewrite Hend in Hiso. destruct (isolate v).
    + split; [intros _|done].
      destruct (decide (outboundOf self (id v) = [] ∧ inboundOf self (id v) = []))
        as [|Hn]; [done|]. by apply Hiso in Hn.
    + split; [done|]. intros H. by destruct (proj1 Hiso).
Qed.

(** X15.  In the graph [buildGraph] returns, [components] is Component 1,
    ..., Component k, and these are exactly the labels the vertices carry,
    so no component is empty and there are at most as many as vertices.
    Numbers follow the vertex order: the first vertex of Component n comes
    after some vertex of every lower-numbered component.  The two ends of
    an arc are always in the same component. *)
Theorem buildGraph_component_numbering (self : LinkProvider) (g : LinkGraph) :
  run (buildGraph basename) self = Ok g →
  components g = componentName <$> seq 1 (length (components g))
  ∧ (∀ c, c ∈ components g ↔ ∃ v, v ∈ nodes g ∧ component v = c)
  ∧ (length (components g) ≤ length (nodes g))%nat
  ∧ (∀ m n j v, (1 ≤ m < n)%nat → nodes g !! j = Some v →
       component v = componentName n →
       ∃ j' w, (j' < j)%nat ∧ nodes g !! j' = Some w ∧ component w = componentName m)
  ∧ (∀ e v w, e ∈ links g → v ∈ nodes g → w ∈ nodes g →
       id v = source e → id w = target e → component v = component w).
Proof.
  intros Hrun. pose proof (buildGraph_spec basename self) as Hspec. rewrite Hrun in Hspec.
  destruct (buildGraph_sweep self g Hrun)
    as (ns2 & _ & Hnone & _ & Hnames & Hfrom & _ & Hused & Hord).
  simpl in *.
  assert (∀ c, c ∈ components g ↔ ∃ v, v ∈ nodes g ∧ component v = c) as Hiff.
  { intros c. split.
    - intros Hc. rewrite Hnames in Hc.
      apply list_elem_of_fmap in Hc as (m & -> & Hm%elem_of_seq).
      destruct (Hused m ltac:(lia)) as (j & v0 & _ & _ & _ & Hj).
      eexists. split; [by eapply list_elem_of_lookup_2|done].
    - intros (v & Hv & <-). by apply (built_labelled _ _ _ Hspec). }
  split_and!; [done|done| | |].
  - rewrite <- (length_fmap component (nodes g)). apply submseteq_length, NoDup_submseteq.
    + rewrite Hnames. apply componentNames_NoDup.
    + intros c (v & Hv & <-)%Hiff. by apply list_elem_of_fmap_2.
  - intros m n j v Hmn Hj Hc.
    assert (n ≤ length (components g))%nat as Hn.
    { assert (componentName n ∈ components g) as Hin.
      { apply Hiff. exists v. split; [by eapply list_elem_of_lookup_2|done]. }
      rewrite Hnames in Hin.
      apply list_elem_of_fmap in Hin as (n' & ->%componentName_inj & Hn'%elem_of_seq). lia. }
    destruct (Forall2_lookup_r _ _ _ _ _ Hfrom Hj) as (v0 & Hj0 & Hrel).
    assert (component v0 = NONE_COMPONENT) as Hn0.
    { rewrite Forall_forall in Hnone. by eapply Hnone, list_elem_of_lookup_2. }
    assert (v = set_component (componentName n) v0) as ->.
    { destruct Hrel as [->|(_ & _ & c & _ & ->)].
      - rewrite Hn0 in Hc. by destruct (componentName_not_NONE n).
      - simpl in Hc. by rewrite Hc. }
    destruct (Hord m n j v0 Hmn Hn Hj0 Hn0 Hj) as (j' & v0' & Hlt & _ & _ & Hj').
    by exists j', (set_component (componentName m) v0').
  - intros e v w He Hv Hw Hs Ht. apply (built_partition _ _ _ Hspec); [done..|].
    apply rtc_once. exists e. split; [done|]. left. by rewrite Hs, Ht.
Qed.

End BuildGraphExtras.

(** ** Further properties, on examples *)

Lemma retrieveInbound_sources_witness :
  run (retrieveInbound "/notes/x.md") pairsIndex = Ok []
  ∧ inboundOf pairsIndex "/notes/c.md" = ["/notes/c.md"; "/notes/d.md"].
Proof.
  destruct (retrieveInbound_sources pairsIndex "/notes/x.md") as (_ & _ & _ & Hnone).
  split; [|vm_compute; reflexivity]. apply Hnone.
  assert (Forall (λ kv : string * list string, "/notes/x.md" ∉ kv.2)
            (_fileLinkDatabase pairsIndex)) as Hall by by_evaluation.
  intros key outbound Hin. exact (proj1 (Forall_forall _ _) Hall (key, outbound) Hin).
Defined.

Lemma inbound_outbound_mirror_witness :
  JsMap.wf (_fileLinkDatabase pairsIndex)
  ∧ ("/notes/d.md" ∈ inboundOf pairsIndex "/notes/c.md"
     ↔ "/notes/c.md" ∈ outboundOf pairsIndex "/notes/d.md").
Proof.
  assert (JsMap.wf (_fileLinkDatabase pairsIndex)) as Hwf
    by (unfold JsMap.wf; by_evaluation).
  split; [exact Hwf|].
  exact (inbound_outbound_mirror pairsIndex "/notes/d.md" "/notes/c.md" Hwf).
Defined.


Lemma report_remove_restores_witness :
  let self' := exec (remove "/notes/f.md" (Some "9"))
                 (exec (report resolveKnown "/notes/f.md" ["/notes/a.md"] (Some "9"))
                       pairsIndex) in
  JsMap.get "/notes/f.md" (_fileLinkDatabase pairsIndex) = None
  ∧ JsMap.get "9" (_idLinkDatabase pairsIndex) = None
  ∧ _fileLinkDatabase self' = _fileLinkDatabase pairsIndex
  ∧ _idLinkDatabase self' = _idLinkDatabase pairsIndex.
Proof.
  intros self'.
  assert (JsMap.get "/notes/f.md" (_fileLinkDatabase pairsIndex) = None) as Hf
    by (vm_compute; reflexivity).
  assert (JsMap.get "9" (_idLinkDatabase pairsIndex) = None) as Hi
    by (vm_compute; reflexivity).
  split; [exact Hf|]. split; [exact Hi|].
  apply (report_remove_restores resolveKnown "/notes/f.md" ["/notes/a.md"] (Some "9")
           pairsIndex Hf).
  intros i Heq. injection Heq as <-. exact Hi.
Defined.

Lemma report_keeps_key_order_witness :
  JsMap.keys (_fileLinkDatabase
     (exec (report resolveKnown "/notes/b.md" ["/notes/a.md"] None) pairsIndex))
  = JsMap.keys (_fileLinkDatabase pairsIndex)
  ∧ JsMap.keys (_fileLinkDatabase
       (exec (report resolveKnown "/notes/f.md" [] None) pairsIndex))
    = JsMap.keys (_fileLinkDatabase pairsIndex) ++ ["/notes/f.md"].
Proof.
  split.
  - apply (report_keeps_key_order resolveKnown "/notes/b.md" ["/notes/a.md"] None pairsIndex).
    by_evaluation.
  - apply (report_keeps_key_order resolveKnown "/notes/f.md" [] None pairsIndex).
    by_evaluation.
Defined.

Lemma remove_drops_shared_id_witness :
  let self' := exec (remove "/notes/a.md" (Some "1"))
                 (exec (report resolveKnown "/notes/b.md" ["/notes/c.md"] (Some "1"))
                    (exec (report resolveKnown "/notes/a.md" ["/notes/b.md"] (Some "1"))
                          new_provider)) in
  "/notes/a.md" ≠ "/notes/b.md" ∧ "1" ≠ ""
  ∧ JsMap.get "1" (_idLinkDatabase self') = None
  ∧ JsMap.get "/notes/a.md" (_fileLinkDatabase self') = None
  ∧ JsMap.get "/notes/b.md" (_fileLinkDatabase self') = Some ["/notes/c.md"].
Proof.
  intros self'.
  assert ("/notes/a.md" ≠ "/notes/b.md") as Hp by by_evaluation.
  assert ("1" ≠ "") as Hi by by_evaluation.
  split; [exact Hp|]. split; [exact Hi|].
  exact (remove_drops_shared_id resolveKnown "/notes/a.md" "/notes/b.md"
           ["/notes/b.md"] ["/notes/c.md"] "1" new_provider Hp Hi).
Defined.

Lemma identifyComponents_on_any_graph_witness :
  identifyComponents mixedGraph = Ok mixedLabeling
  ∧ erase mixedLabeling.1 = erase (nodes mixedGraph)
  ∧ mixedLabeling.1 !! 1%nat = Some (mkVertex "b" "b" "Mine" false)
  ∧ ∃ c, c ∈ mixedLabeling.2 ∧ c ≠ NONE_COMPONENT
         ∧ mixedLabeling.1 !! 2%nat
           = Some (set_component c (mkVertex "c" "c" "Files" false)).
Proof.
  assert (identifyComponents mixedGraph = Ok mixedLabeling) as Hrun
    by (vm_compute; reflexivity).
  destruct (identifyComponents_on_any_graph mixedGraph) as (_ & _ & Hok).
  destruct (Hok mixedLabeling Hrun) as (Herase & Hkeep & Hnew).
  split; [exact Hrun|]. split; [exact Herase|]. split.
  - apply (Hkeep 1%nat (mkVertex "b" "b" "Mine" false)); [reflexivity|by_evaluation].
  - apply (Hnew 2%nat (mkVertex "c" "c" "Files" false)); reflexivity.
Defined.

Lemma identifyComponents_returned_labels_witness :
  identifyComponents mixedGraph = Ok mixedLabeling
  ∧ mixedLabeling.2 = componentName <$> seq 1 (length mixedLabeling.2)
  ∧ (∀ c, c ∈ mixedLabeling.2 →
       ∃ i v, nodes mixedGraph !! i = Some v ∧ component v = NONE_COMPONENT
              ∧ mixedLabeling.1 !! i = Some (set_component c v))
  ∧ (length mixedLabeling.2 ≤ unassigned (nodes mixedGraph))%nat.
Proof.
  assert (identifyComponents mixedGraph = Ok mixedLabeling) as Hrun
    by (vm_compute; reflexivity).
  split; [exact Hrun|].
  exact (identifyComponents_returned_labels mixedGraph mixedLabeling Hrun).
Defined.

Lemma identifyComponents_dangling_arc_witness :
  mkVertex "a" "a" "Files" false ∈ nodes danglingGraph
  ∧ mkEdge "a" "b" 1 ∈ links danglingGraph
  ∧ ("b" ∉ ids (nodes danglingGraph))
  ∧ identifyComponents danglingGraph = Throw TypeError.
Proof.
  assert (mkVertex "a" "a" "Files" false ∈ nodes danglingGraph) as Hv by by_evaluation.
  assert (mkEdge "a" "b" 1 ∈ links danglingGraph) as He by by_evaluation.
  assert ("b" ∉ ids (nodes danglingGraph)) as Hb by by_evaluation.
  split; [exact Hv|]. split; [exact He|]. split; [exact Hb|].
  apply (identifyComponents_dangling_arc danglingGraph _ _ Hv eq_refl He).
  left. split; [reflexivity|exact Hb].
Defined.

Lemma buildGraph_vertices_and_arcs_witness :
  run (buildGraph posixBasename) pairsIndex = Ok pairsGraph
  ∧ JsMap.wf (_fileLinkDatabase pairsIndex)
  ∧ length (links pairsGraph)
    = sum_list ((λ kv, length kv.2) <$> _fileLinkDatabase pairsIndex)
  ∧ id <$> nodes pairsGraph = JsMap.keys (_fileLinkDatabase pairsIndex).
Proof.
  assert (run (buildGraph posixBasename) pairsIndex = Ok pairsGraph) as Hrun
    by (vm_compute; reflexivity).
  assert (JsMap.wf (_fileLinkDatabase pairsIndex)) as Hwf
    by (unfold JsMap.wf; by_evaluation).
  destruct (buildGraph_vertices_and_arcs posixBasename pairsIndex pairsGraph Hrun)
    as (_ & Hlen & _ & Hids).
  split; [exact Hrun|]. split; [exact Hwf|]. split; [exact Hlen|exact (Hids Hwf)].
Defined.

Lemma buildGraph_agrees_with_queries_witness :
  JsMap.wf (_fileLinkDatabase pairsIndex)
  ∧ run (buildGraph posixBasename) pairsIndex = Ok pairsGraph
  ∧ (∀ source target,
       {| source := source; target := target; weight := 1 |} ∈ links pairsGraph
       ↔ target ∈ outboundOf pairsIndex source)
  ∧ (∀ e, e ∈ links pairsGraph → weight e = 1%Z)
  ∧ (∀ v, v ∈ nodes pairsGraph →
       (isolate v = true
        ↔ outboundOf pairsIndex (id v) = [] ∧ inboundOf pairsIndex (id v) = [])).
Proof.
  assert (run (buildGraph posixBasename) pairsIndex = Ok pairsGraph) as Hrun
    by (vm_compute; reflexivity).
  assert (JsMap.wf (_fileLinkDatabase pairsIndex)) as Hwf
    by (unfold JsMap.wf; by_evaluation).
  split; [exact Hwf|]. split; [exact Hrun|].
  exact (buildGraph_agrees_with_queries posixBasename pairsIndex pairsGraph Hwf Hrun).
Defined.

Lemma buildGraph_component_numbering_witness :
  run (buildGraph posixBasename) pairsIndex = Ok pairsGraph
  ∧ components pairsGraph = componentName <$> seq 1 (length (components pairsGraph))
  ∧ (∀ c, c ∈ components pairsGraph ↔ ∃ v, v ∈ nodes pairsGraph ∧ component v = c)
  ∧ (length (components pairsGraph) ≤ length (nodes pairsGraph))%nat.
Proof.
  assert (run (buildGraph posixBasename) pairsIndex = Ok pairsGraph) as Hrun
    by (vm_compute; reflexivity).
  destruct (buildGraph_component_numbering posixBasename pairsIndex pairsGraph Hrun)
    as (Hnames & Hiff & Hlen & _).
  split; [exact Hrun|]. split; [exact Hnames|]. split; [exact Hiff|exact Hlen].
Defined.

(** ** Sorting directories *)

Lemma strLt_compare a b : strLt a b ↔ String.compare a b = Lt.
Proof. unfold strLt, String.ltb. by destruct (String.compare a b). Qed.

Lemma compare_refl a : String.compare a a = Eq.
Proof.
  pose proof (String.compare_antisym a a) as H. by destruct (String.compare a a).
Qed.

Lemma strLt_irrefl a : ¬ strLt a a.
Proof. rewrite strLt_compare, compare_refl. done. Qed.

Lemma strLt_asym a b : strLt a b → ¬ strLt b a.
Proof.
  rewrite !strLt_compare, (String.compare_antisym a b).
  by destruct (String.compare b a).
Qed.

Lemma strLt_trichotomy a b : strLt a b ∨ a = b ∨ strLt b a.
Proof.
  rewrite !strLt_compare, (String.compare_antisym a b).
  destruct (String.compare b a) eqn:Hc; simpl; [|by right; right|by left].
  right. left. symmetry. by apply String.compare_eq_iff.
Qed.

Lemma strLt_le a b : strLt a b → String.le a b.
Proof.
  rewrite strLt_compare. unfold String.le, String.leb. by intros ->.
Qed.

Lemma strLt_trans a b c : strLt a b → strLt b c → strLt a c.
Proof.
  intros Hab Hbc.
  assert (String.le a c) as Hac by (etrans; by apply strLt_le).
  destruct (strLt_trichotomy a c) as [?|[->|Hca]]; [done| |].
  - by destruct (strLt_asym _ _ Hab).
  - destruct (strLt_asym _ _ Hca). apply strLt_compare.
    unfold String.le, String.leb in Hac. rewrite String.compare_antisym in Hac.
    apply strLt_compare in Hca. rewrite Hca in Hac. done.
Qed.

Lemma jsLt_true a b : strLt a b → jsLt a b = true ∧ jsGt a b = false.
Proof.
  intros H. split; [done|]. unfold jsGt.
  destruct (String.ltb b a) eqn:Hba; [|done]. by destruct (strLt_asym _ _ H).
Qed.

Lemma jsLt_same a : jsLt a a = false ∧ jsGt a a = false.
Proof.
  unfold jsLt, jsGt. destruct (String.ltb a a) eqn:H; [|done]. by destruct (strLt_irrefl a).
Qed.

Section ArraySort.
Context {A : Type}.
Variable compareFn : A → A → Z.

Lemma insert_Permutation x l : JsArray.insert compareFn x l ≡ₚ x :: l.
Proof.
  induction l as [|y l IH]; simpl; [done|].
  destruct (decide _); [done|]. rewrite IH. apply Permutation_swap.
Qed.

Lemma sort_Permutation l : JsArray.sort compareFn l ≡ₚ l.
Proof.
  unfold JsArray.sort. induction l as [|x l IH]; simpl; [done|].
  by rewrite insert_Permutation, IH.
Qed.

Lemma insert_StronglySorted (R : relation A) x l :
  (∀ x y, (compareFn x y ≤ 0)%Z ↔ R x y) → (∀ x y, R x y ∨ R y x) → Transitive R →
  StronglySorted R l → StronglySorted R (JsArray.insert compareFn x l).
Proof.
  intros Hcmp Htotal Htrans. induction 1 as [|y l Hl IH Hy]; simpl.
  - by repeat constructor.
  - destruct (decide _) as [Hxy%Hcmp|Hxy].
    + constructor; [by constructor|]. constructor; [done|].
      eapply Forall_impl; [exact Hy|]. intros z Hz. by etrans.
    + constructor; [done|]. rewrite insert_Permutation. constructor; [|done].
      destruct (Htotal x y) as [Hxy'%Hcmp|]; [done|done].
Qed.

Lemma sort_StronglySorted (R : relation A) l :
  (∀ x y, (compareFn x y ≤ 0)%Z ↔ R x y) → (∀ x y, R x y ∨ R y x) → Transitive R →
  StronglySorted R (JsArray.sort compareFn l).
Proof.
  intros Hcmp Htotal Htrans. unfold JsArray.sort.
  induction l as [|x l IH]; simpl; [constructor|]. by apply insert_StronglySorted.
Qed.

Lemma insert_filter (P : A → Prop) `{!∀ x, Decision (P x)} x l :
  (∀ y, P x → P y → (compareFn x y ≤ 0)%Z) →
  filter P (JsArray.insert compareFn x l) = filter P (x :: l).
Proof.
  intros Hclass. induction l as [|y l IH]; simpl; [done|].
  destruct (decide _) as [|Hxy]; [done|].
  rewrite filter_cons, IH, !filter_cons.
  destruct (decide (P y)) as [Hy|]; [|done]. destruct (decide (P x)) as [Hx|]; [|done].
  destruct Hxy. by apply Hclass.
Qed.

Lemma sort_filter (P : A → Prop) `{!∀ x, Decision (P x)} l :
  (∀ x y, P x → P y → (compareFn x y ≤ 0)%Z) →
  filter P (JsArray.sort compareFn l) = filter P l.
Proof.
  intros Hclass. unfold JsArray.sort. induction l as [|x l IH]; simpl; [done|].
  rewrite insert_filter by (intros y; apply Hclass). by rewrite !filter_cons, IH.
Qed.
End ArraySort.

Section SortDirectoriesFacts.
Variable DirMeta : Type.
Variable name dir : DirMeta → string.
Variable toLowerCase : string → string.

Local Abbreviation before := (dirBefore name dir toLowerCase).
Local Abbreviation same := (sameKey name dir toLowerCase).
Local Abbreviation compareByAlpha :=
  (SortDirectories.compareByAlpha DirMeta name dir toLowerCase).
Local Abbreviation sortDirectories :=
  (SortDirectories.sortDirectories DirMeta name dir toLowerCase).

Lemma before_not_same a b : before a b → ¬ same a b.
Proof.
  intros [Hn|[_ Hd]] [Hn' Hd'].
  - rewrite Hn' in Hn. by apply strLt_irrefl in Hn.
  - rewrite Hd' in Hd. by apply strLt_irrefl in Hd.
Qed.

Lemma before_asym a b : before a b → ¬ before b a.
Proof.
  intros [Hn|[He Hd]] [Hn'|[He' Hd']].
  - by destruct (strLt_asym _ _ Hn).
  - rewrite He' in Hn. by apply strLt_irrefl in Hn.
  - rewrite He in Hn'. by apply strLt_irrefl in Hn'.
  - by destruct (strLt_asym _ _ Hd).
Qed.

Lemma before_trans a b c : before a b → before b c → before a c.
Proof.
  intros [Hn|[He Hd]] [Hn'|[He' Hd']].
  - left. by eapply strLt_trans.
  - left. by rewrite <- He'.
  - left. by rewrite He.
  - right. split; [congruence|by eapply strLt_trans].
Qed.

Lemma before_same_l a b c : same a b → before b c → before a c.
Proof.
  intros [He Hd] [Hn|[He' Hd']]; [left; by rewrite He|].
  right. split; [congruence|by rewrite Hd].
Qed.

Lemma before_same_r a b c : before a b → same b c → before a c.
Proof.
  intros [Hn|[He' Hd']] [He Hd]; [left; by rewrite <- He|].
  right. split; [congruence|by rewrite <- Hd].
Qed.

Lemma same_sym a b : same a b → same b a.
Proof. intros [??]. by split. Qed.

Lemma same_trans a b c : same a b → same b c → same a c.
Proof. intros [??] [??]. split; congruence. Qed.

Lemma key_trichotomy a b : before a b ∨ same a b ∨ before b a.
Proof.
  unfold dirBefore, sameKey.
  destruct (strLt_trichotomy (toLowerCase (name a)) (toLowerCase (name b))) as [?|[He|?]];
    [by left; left| |by right; right; left].
  destruct (strLt_trichotomy (dir a) (dir b)) as [?|[Hd|?]].
  - left. by right.
  - right. by left.
  - right. right. by right.
Qed.

(** The value [compareByAlpha] returns, by the order of its arguments. *)
Lemma compareByAlpha_cases sortBy a b :
  let sign := if decide (sortBy = "AlphaA") then 1%Z else (-1)%Z in
  (before a b ∧ compareByAlpha sortBy a b = (- sign)%Z)
  ∨ (same a b ∧ compareByAlpha sortBy a b = 0%Z)
  ∨ (before b a ∧ compareByAlpha sortBy a b = sign).
Proof.
  intros sign. unfold SortDirectories.compareByAlpha. fold sign. cbv zeta.
  assert (∀ x y, strLt x y →
            (if jsLt x y then (-1)%Z else if jsGt x y then 1%Z else 0%Z) = (-1)%Z
            ∧ (if jsLt y x then (-1)%Z else if jsGt y x then 1%Z else 0%Z) = 1%Z) as Hlt.
  { intros x y Hxy. destruct (jsLt_true _ _ Hxy) as [H1 H2].
    unfold jsGt, jsLt in *. by rewrite H1, H2. }
  assert (∀ x, (if jsLt x x then (-1)%Z else if jsGt x x then 1%Z else 0%Z) = 0%Z) as Heq.
  { intros x. by destruct (jsLt_same x) as [-> ->]. }
  destruct (decide (toLowerCase (name a) = toLowerCase (name b))) as [He|Hne].
  - destruct (strLt_trichotomy (dir a) (dir b)) as [Hd|[Hd|Hd]].
    + left. split; [by right|]. rewrite (proj1 (Hlt _ _ Hd)). lia.
    + right. left. split; [done|]. rewrite Hd, Heq. lia.
    + right. right. split; [by right|]. rewrite (proj2 (Hlt _ _ Hd)). lia.
  - destruct (strLt_trichotomy (toLowerCase (name a)) (toLowerCase (name b)))
      as [Hn|[Hn|Hn]]; [|done|].
    + left. split; [by left|]. rewrite (proj1 (Hlt _ _ Hn)). lia.
    + right. right. split; [by left|]. rewrite (proj2 (Hlt _ _ Hn)). lia.
Qed.

Lemma compareByAlpha_le sortBy a b :
  (compareByAlpha sortBy a b ≤ 0)%Z ↔
  if decide (sortBy = "AlphaA") then before a b ∨ same a b else before b a ∨ same a b.
Proof.
  pose proof (compareByAlpha_cases sortBy a b) as Hcases. cbv zeta in Hcases.
  destruct (decide (sortBy = "AlphaA")).
  - destruct Hcases as [[H ->]|[[H ->]|[H ->]]]; split; try (by auto); try lia.
    intros [H'|H']; [by destruct (before_asym _ _ H)|].
    by destruct (before_not_same _ _ H), (same_sym _ _ H').
  - destruct Hcases as [[H ->]|[[H ->]|[H ->]]]; split; try (by auto); try lia.
    intros [H'|H']; [by destruct (before_asym _ _ H)|].
    by destruct (before_not_same _ _ H).
Qed.

Lemma sort_sorted_id {A} (compareFn : A → A → Z) (R : relation A) (l : list A) :
  (∀ x y, (compareFn x y ≤ 0)%Z ↔ R x y) →
  StronglySorted R l → JsArray.sort compareFn l = l.
Proof.
  intros Hcmp. unfold JsArray.sort. induction 1 as [|x l Hl IH Hx]; simpl; [done|].
  rewrite IH. destruct Hx as [|y l Hxy _]; simpl; [done|].
  by rewrite decide_True by by apply Hcmp.
Qed.

Ltac key_contra :=
  match goal with
  | H1 : dirBefore _ _ _ ?a ?b, H2 : dirBefore _ _ _ ?b ?a |- _ =>
      destruct (before_asym _ _ H1 H2)
  | H1 : dirBefore _ _ _ ?a ?b, H2 : sameKey _ _ _ ?a ?b |- _ =>
      destruct (before_not_same _ _ H1 H2)
  | H1 : dirBefore _ _ _ ?a ?b, H2 : sameKey _ _ _ ?b ?a |- _ =>
      destruct (before_not_same _ _ H1 (same_sym _ _ H2))
  end.




End SortDirectoriesFacts.

Example sortDirectories_example :
  SortDirectories.sortDirectories exampleDir dirName dirPath asciiToLowerCase exampleDirs None
  = [ mkDir "Archive" "/home/a" 2; mkDir "Notes" "/home/a" 3;
      mkDir "notes" "/home/b" 1; mkDir "notes" "/home/b" 4 ]
  ∧ SortDirectories.sortDirectories exampleDir dirName dirPath asciiToLowerCase exampleDirs
      (Some "alphaa")
    = [ mkDir "notes" "/home/b" 1; mkDir "notes" "/home/b" 4;
        mkDir "Notes" "/home/a" 3; mkDir "Archive" "/home/a" 2 ].
Proof. split; vm_compute; reflexivity. Qed.


